(** * cclint: global-variable lint for ComputerCraft Lua scripts

    A shallow embedding of [cclint.py] and the properties of its
    listing-to-diagnostics pipeline.

    Python [bytes] and ASCII-decoded [str] values are [string] (a list of
    8-bit characters); Python [int]s that are never negative (line numbers,
    counts) are [N]; [None] is modelled with [option]; exceptions are the
    [Raise] branch of [result]. *)

From Stdlib Require Import String Ascii List NArith Bool Arith Lia.
From Stdlib Require Import Sorted Permutation DecimalString.
Import ListNotations.

Open Scope string_scope.
Open Scope list_scope.

Infix "+++" := String.append (at level 60, right associativity).

(* ================================================================== *)
(** ** Python values and built-ins used by the program *)

Module Py.

Inductive exn : Type := IndexError | TypeError | UnicodeDecodeError.

Inductive result (A : Type) : Type :=
| Ok (a : A)
| Raise (e : exn).
Arguments Ok {A} a.
Arguments Raise {A} e.

Definition bind {A B} (m : result A) (f : A -> result B) : result B :=
  match m with
  | Ok a => f a
  | Raise e => Raise e
  end.

Definition TAB : ascii := "009"%char.
Definition NL : ascii := "010"%char.
Definition CR : ascii := "013"%char.
Definition DQUOTE : ascii := "034"%char.

(** [s.split(sep)] for a one-character separator: never the empty list. *)
Fixpoint split (sep : ascii) (s : string) : list string :=
  match s with
  | EmptyString => [EmptyString]
  | String a s' =>
      if Ascii.eqb a sep then EmptyString :: split sep s'
      else match split sep s' with
           | x :: xs => String a x :: xs
           | [] => [String a EmptyString]
           end
  end.

(** [s.rstrip(c)] for a one-character set. *)
Fixpoint rstrip (c : ascii) (s : string) : string :=
  match s with
  | EmptyString => EmptyString
  | String a s' =>
      match rstrip c s' with
      | EmptyString => if Ascii.eqb a c then EmptyString else String a EmptyString
      | t => String a t
      end
  end.

(** Characters [str.strip()] removes, among the 7-bit ones. *)
Definition isspace (a : ascii) : bool :=
  let n := N_of_ascii a in
  ((9 <=? n) && (n <=? 13) || (28 <=? n) && (n <=? 32))%N.

Fixpoint lstrip_ws (s : string) : string :=
  match s with
  | String a s' => if isspace a then lstrip_ws s' else s
  | EmptyString => EmptyString
  end.

Fixpoint rstrip_ws (s : string) : string :=
  match s with
  | EmptyString => EmptyString
  | String a s' =>
      match rstrip_ws s' with
      | EmptyString => if isspace a then EmptyString else String a EmptyString
      | t => String a t
      end
  end.

(** [s.strip()] *)
Definition strip (s : string) : string := rstrip_ws (lstrip_ws s).

(** [s.startswith(p)] *)
Definition startswith (s p : string) : bool := String.prefix p s.

(** [sub in s] *)
Fixpoint contains (sub s : string) : bool :=
  String.prefix sub s ||
  match s with
  | String _ s' => contains sub s'
  | EmptyString => false
  end.

(** [s.count(c)] for one character. *)
Fixpoint count (c : ascii) (s : string) : N :=
  match s with
  | EmptyString => 0
  | String a s' => ((if Ascii.eqb a c then 1 else 0) + count c s')%N
  end.

(** [str(n)] of a non-negative int. *)
Definition str (n : N) : string := NilZero.string_of_uint (N.to_uint n).

Definition digit_val (a : ascii) : N := (N_of_ascii a - 48)%N.

Fixpoint int_acc (acc : N) (s : string) : N :=
  match s with
  | EmptyString => acc
  | String a s' => int_acc (10 * acc + digit_val a)%N s'
  end.

(** [int(s)] of a non-empty string of ASCII digits. *)
Definition int (s : string) : N := int_acc 0%N s.

Fixpoint spaces (n : nat) : string :=
  match n with
  | O => EmptyString
  | S n' => String " " (spaces n')
  end.

Fixpoint zeros (n : nat) : string :=
  match n with
  | O => EmptyString
  | S n' => String "0" (zeros n')
  end.

(** ["{:Wd}".format(n)]: no fill or alignment is given, so the number is
    right-aligned and the field is filled on the left with spaces. *)
Definition format_d (width : nat) (n : N) : string :=
  spaces (width - String.length (str n)) +++ str n.

(** ["{:0Wd}".format(n)], the zero-filled field; the program never asks
    for it, it is here to be compared with [format_d]. *)
Definition format_0d (width : nat) (n : N) : string :=
  zeros (width - String.length (str n)) +++ str n.

(** [x in lst] for a list that may hold [None]. *)
Definition mem (x : option string) (l : list (option string)) : bool :=
  existsb (fun y =>
             match x, y with
             | Some a, Some b => String.eqb a b
             | None, None => true
             | _, _ => false
             end) l.

(** [b.isascii()]: every byte is below 128. *)
Fixpoint isascii (b : string) : bool :=
  match b with
  | EmptyString => true
  | String a b' => (N_of_ascii a <? 128)%N && isascii b'
  end.

(** [b.decode("ascii")] *)
Definition decode_ascii (b : string) : result string :=
  if isascii b then Ok b else Raise UnicodeDecodeError.

(** [instructions[i]] *)
Definition getitem {A} (l : list A) (i : nat) : result A :=
  match nth_error l i with
  | Some x => Ok x
  | None => Raise IndexError
  end.

End Py.
Import Py.

Notation "x <- m ;; k" := (Py.bind m (fun x => k))
  (at level 61, m at next level, right associativity).

(* ================================================================== *)
(** ** A backtracking matcher for the regular expressions of the program

    The constructors follow the operations Python's [re] compiles the
    patterns to: a repeat of a single character class is matched by
    [max_repeat_one] (greedy) or [min_repeat_one] (lazy); a repeat of a
    longer body is the general greedy [MaxRepeat].  Alternatives are tried
    in the matcher's priority order, and the first complete match wins.
    A turn of [MaxRepeat] has to consume a character, so the length of the
    text bounds the number of turns. *)

Module Re.

Definition cls := ascii -> bool.

Inductive regex : Type :=
| Empty
| Lit (l : string)
| In_ (p : cls)
| Cat (r1 r2 : regex)
| MaxRepeatOne (p : cls)            (* p*   *)
| MinRepeatOne (p : cls)            (* p*?  *)
| MaxRepeat (r : regex)             (* (?:r)* *)
| Optional (r : regex)              (* (r)? *)
| Group (g : string) (r : regex)    (* (?P<g>r) *)
| AtEnd.                            (* $ *)

(** [p+] and [p+?] *)
Definition Plus (p : cls) : regex := Cat (In_ p) (MaxRepeatOne p).
Definition MinPlus (p : cls) : regex := Cat (In_ p) (MinRepeatOne p).

Definition cat (rs : list regex) : regex := fold_right Cat Empty rs.

(** Groups that took part in the match, latest binding first. *)
Definition captures := list (string * string).

Fixpoint group (c : captures) (g : string) : option string :=
  match c with
  | [] => None
  | (g', v) :: c' => if String.eqb g g' then Some v else group c' g
  end.

(** The text between position [s] and the later position [s']. *)
Definition consumed (s s' : string) : string :=
  substring 0 (String.length s - String.length s') s.

Fixpoint lit (l s : string) : option string :=
  match l with
  | EmptyString => Some s
  | String a l' =>
      match s with
      | String b s' => if Ascii.eqb a b then lit l' s' else None
      | EmptyString => None
      end
  end.

(** [$] without MULTILINE: the end, or just before a final newline. *)
Definition at_end (s : string) : bool :=
  match s with
  | EmptyString => true
  | String a EmptyString => Ascii.eqb a NL
  | _ => false
  end.

Section Matcher.
Variable R : Type.

Definition cont : Type := string -> captures -> option R.

Fixpoint max_repeat_one (p : cls) (s : string) (c : captures) (k : cont)
  : option R :=
  match s with
  | String a s' =>
      if p a then
        match max_repeat_one p s' c k with
        | Some x => Some x
        | None => k s c
        end
      else k s c
  | EmptyString => k s c
  end.

Fixpoint min_repeat_one (p : cls) (s : string) (c : captures) (k : cont)
  : option R :=
  match k s c with
  | Some x => Some x
  | None =>
      match s with
      | String a s' => if p a then min_repeat_one p s' c k else None
      | EmptyString => None
      end
  end.

Fixpoint rmatch (r : regex) (s : string) (c : captures) (k : cont)
  {struct r} : option R :=
  match r with
  | Empty => k s c
  | Lit l =>
      match lit l s with
      | Some s' => k s' c
      | None => None
      end
  | In_ p =>
      match s with
      | String a s' => if p a then k s' c else None
      | EmptyString => None
      end
  | Cat r1 r2 => rmatch r1 s c (fun s' c' => rmatch r2 s' c' k)
  | MaxRepeatOne p => max_repeat_one p s c k
  | MinRepeatOne p => min_repeat_one p s c k
  | MaxRepeat r' =>
      (fix loop (fuel : nat) (s : string) (c : captures) {struct fuel}
         : option R :=
         match fuel with
         | O => k s c
         | S fuel' =>
             match rmatch r' s c
                     (fun s' c' =>
                        if Nat.ltb (String.length s') (String.length s)
                        then loop fuel' s' c' else None) with
             | Some x => Some x
             | None => k s c
             end
         end) (String.length s) s c
  | Optional r' =>
      match rmatch r' s c k with
      | Some x => Some x
      | None => k s c
      end
  | Group g r' =>
      rmatch r' s c (fun s' c' => k s' ((g, consumed s s') :: c'))
  | AtEnd => if at_end s then k s c else None
  end.
End Matcher.

(** [re.match(r, s)]: anchored at the start of [s]; the result is the
    groups of the match. *)
Definition re_match (r : regex) (s : string) : option captures :=
  rmatch captures r s [] (fun _ c => Some c).

(** A match at the start of [s] together with the text left after it. *)
Definition match_here (r : regex) (s : string) : option (string * captures) :=
  rmatch (string * captures) r s [] (fun rest c => Some (rest, c)).

(** [re.finditer(r, s)]: the matches found left to right, each search
    resuming where the previous match ended.  [skip] counts the characters
    of the previous match still to be passed over. *)
Fixpoint finditer_from (r : regex) (skip : nat) (s : string) : list captures :=
  match skip with
  | S n =>
      match s with
      | String _ s' => finditer_from r n s'
      | EmptyString => []
      end
  | O =>
      match match_here r s with
      | Some (rest, c) =>
          c :: match s with
               | String _ s' =>
                   finditer_from r (String.length s - String.length rest - 1) s'
               | EmptyString => []
               end
      | None =>
          match s with
          | String _ s' => finditer_from r 0 s'
          | EmptyString => []
          end
      end
  end.

Definition finditer (r : regex) (s : string) : list captures :=
  finditer_from r 0 s.

(** Character classes. *)
Definition between (lo hi : N) (a : ascii) : bool :=
  let n := N_of_ascii a in ((lo <=? n) && (n <=? hi))%N.
Definition dot : cls := fun a => negb (Ascii.eqb a NL).            (* .      *)
Definition digit : cls := between 48 57.                           (* \d     *)
Definition upper : cls := between 65 90.                           (* [A-Z]  *)
Definition blank : cls :=                                          (* [ \t]  *)
  fun a => Ascii.eqb a " " || Ascii.eqb a TAB.
Definition operand : cls :=                                        (* [\d -] *)
  fun a => digit a || Ascii.eqb a " " || Ascii.eqb a "-".
Definition not_slash : cls := fun a => negb (Ascii.eqb a "/").     (* [^/]   *)
Definition word : cls :=                                           (* \w on bytes *)
  fun a => between 97 122 a || between 65 90 a || digit a || Ascii.eqb a "_".
Definition space : cls :=                                          (* \s on bytes *)
  fun a => Ascii.eqb a " " || between 9 13 a.

End Re.
Import Re.

(* ================================================================== *)
(** ** The program *)

Definition lua51_builtins : list string :=
  [ "_G"; "_VERSION"; "LUA_PATH"; "assert"; "collectgarbage"; "coroutine";
    "debug"; "dofile"; "error"; "gcinfo"; "getfenv"; "getmetatable"; "io";
    "ipairs"; "load"; "loadfile"; "loadstring"; "math"; "module";
    "newproxy"; "next"; "os"; "package"; "pairs"; "pcall"; "print";
    "rawequal"; "rawget"; "rawset"; "require"; "select"; "setfenv";
    "setmetatable"; "string"; "table"; "tonumber"; "tostring"; "type";
    "unpack"; "xpcall" ].

Definition cc_builtins : list string :=
  [ "colors"; "colours"; "disk"; "fs"; "gps"; "help"; "io"; "keys";
    "paintutils"; "parallel"; "peripheral"; "rednet"; "redstone"; "shell";
    "term"; "textutils"; "turtle"; "vector" ].

(** *** parse_bytecode *)

(** The chunk an instruction belongs to: ["main"] or ["function"]; the
    variable holds [None] until the first header line. *)
Inductive chunk_kind : Type := Main | Function.

(** [(chunk, line, name, info)] *)
Definition instruction : Type :=
  (option chunk_kind * N * string * option string)%type.

(** [instruction_regex], piece by piece:
    [^\t]  [\d+]  [\t\[]  [(?P<line>\d+)]  [\]\t]  [(?P<name>[A-Z]+)]
    [[ \t]+]  [[\d -]*]  then optionally [\t; ] and the group [info] holding [.*], and [$]. *)
Definition instruction_regex : regex :=
  cat [ Lit (String TAB EmptyString); Plus digit; Lit (String TAB "[");
        Group "line" (Plus digit); Lit ("]" +++ String TAB EmptyString);
        Group "name" (Plus upper); Plus blank; MaxRepeatOne operand;
        Optional (Cat (Lit (String TAB "; "))
                      (Group "info" (MaxRepeatOne dot)));
        AtEnd ].

(** The loop of [parse_bytecode]; [chunk] is the loop's variable. *)
Fixpoint parse_lines (chunk : option chunk_kind) (lines : list string)
  : list instruction :=
  match lines with
  | [] => []
  | line :: rest =>
      let line := rstrip CR line in
      if startswith line "main <" then parse_lines (Some Main) rest
      else if startswith line "function <" then parse_lines (Some Function) rest
      else
        match re_match instruction_regex line with
        | Some m =>
            match group m "line", group m "name" with
            | Some l, Some n =>
                (chunk, int l, n, group m "info") :: parse_lines chunk rest
            | _, _ => parse_lines chunk rest
            end
        | None => parse_lines chunk rest
        end
  end.

Definition parse_bytecode (listing : string) : list instruction :=
  parse_lines None (split NL listing).

(** *** get_apis *)

(** The pattern of [re.match] in [get_apis], piece by piece: a double
    quote, [.*?], [(?P<api>[^/]+)], a double quote, [$]. *)
Definition api_regex : regex :=
  cat [ Lit (String DQUOTE EmptyString); MinRepeatOne dot;
        Group "api" (Plus not_slash); Lit (String DQUOTE EmptyString); AtEnd ].

(** [info in ("os", "bapil")] *)
Definition is_loader (info : option string) : bool :=
  match info with
  | Some s => String.eqb s "os" || String.eqb s "bapil"
  | None => false
  end.

(** [info] equals [loadAPI] written between double quotes. *)
Definition is_loadAPI (info : option string) : bool :=
  match info with
  | Some s => String.eqb s (String DQUOTE ("loadAPI" +++ String DQUOTE EmptyString))
  | None => false
  end.

(** One turn of the [while] loop at index [i]: the new index and list, or
    the exception of an [instructions[...]] out of range or of [re.match]
    on [None]. *)
Definition get_apis_body (instructions : list instruction) (i : nat)
  (apis : list string) : result (nat * list string) :=
  ins <- getitem instructions i ;;
  let '(_, _, name, info) := ins in
  if String.eqb name "GETGLOBAL" && is_loader info then
    ins <- getitem instructions (i + 1) ;;
    let '(_, _, name, info) := ins in
    if String.eqb name "GETTABLE" && is_loadAPI info then
      ins <- getitem instructions (i + 2) ;;
      let '(_, _, name, info) := ins in
      if String.eqb name "LOADK" then
        ins <- getitem instructions (i + 3) ;;
        let '(_, _, name, _) := ins in
        if String.eqb name "CALL" then
          match info with
          | None => Raise TypeError
          | Some text =>
              match re_match api_regex text with
              | Some m =>
                  match group m "api" with
                  | Some api => Ok (i + 3 + 1, apis ++ [api])
                  | None => Ok (i + 1, apis)
                  end
              | None => Ok (i + 1, apis)
              end
          end
        else Ok (i + 1, apis)
      else Ok (i + 1, apis)
    else Ok (i + 1, apis)
  else Ok (i + 1, apis).

(** [while i < n]: every turn moves [i] up, so [n - i] turns are enough
    ([get_apis_loop_fuel] below). *)
Fixpoint get_apis_loop (fuel : nat) (instructions : list instruction)
  (i : nat) (apis : list string) : result (list string) :=
  if Nat.ltb i (List.length instructions) then
    match fuel with
    | O => Ok apis
    | S fuel' =>
        st <- get_apis_body instructions i apis ;;
        get_apis_loop fuel' instructions (fst st) (snd st)
    end
  else Ok apis.

Definition get_apis (instructions : list instruction) : result (list string) :=
  get_apis_loop (List.length instructions) instructions 0 [].

(** *** get_global_refs *)

(** ["get"] or ["set"] *)
Inductive action : Type := Get | Set_.

Definition action_name (a : action) : string :=
  match a with
  | Get => "get"
  | Set_ => "set"
  end.

(** [(action, line, name, chunk)] *)
Definition global_ref : Type :=
  (action * N * option string * option chunk_kind)%type.

Fixpoint get_global_refs (instructions : list instruction) : list global_ref :=
  match instructions with
  | [] => []
  | (chunk, line, name, info) :: rest =>
      if String.eqb name "GETGLOBAL" then
        (Get, line, info, chunk) :: get_global_refs rest
      else if String.eqb name "SETGLOBAL" then
        (Set_, line, info, chunk) :: get_global_refs rest
      else get_global_refs rest
  end.

(** *** get_directives *)

(** Group 1 of the three marker patterns: [\w+] followed by any number
    of [,\s*\w+]. *)
Definition name_list : regex :=
  Group "1" (Cat (Plus word)
                 (MaxRepeat (cat [Lit ","; MaxRepeatOne space; Plus word]))).

Definition ignore_global_regex : regex :=
  Cat (Lit "lint-ignore-global: ") name_list.
Definition ignore_global_get_regex : regex :=
  Cat (Lit "lint-ignore-global-get: ") name_list.
Definition ignore_global_set_regex : regex :=
  Cat (Lit "lint-ignore-global-set: ") name_list.

(** The names of every match of one marker, in order. *)
Definition directive_names (r : regex) (source : string) : list string :=
  flat_map (fun m =>
              match group m "1" with
              | Some names => map strip (split "," names)
              | None => []
              end)
           (finditer r source).

(** [(ignore_global_get, ignore_global_set, set_globals_in_main, cache_globals)] *)
Definition get_directives (source : string)
  : list string * list string * bool * bool :=
  let both := directive_names ignore_global_regex source in
  let ignore_global_get :=
    both ++ directive_names ignore_global_get_regex source in
  let ignore_global_set :=
    both ++ directive_names ignore_global_set_regex source in
  (ignore_global_get, ignore_global_set,
   contains "lint-set-globals-in-main-chunk" source,
   contains "lint-check-globals-cached" source).

(** *** check *)

(** [(line, action, name)], the tuples of the list [warnings]. *)
Definition warning : Type := (N * action * option string)%type.

(** [len(str(source.count(b"\n")))], the width in [line_mask]. *)
Definition line_width (source : string) : nat :=
  String.length (str (count NL source)).

(** [add_message]; [line] arrives here already through [int(line)]. *)
Definition add_message (width : nat) (messages : list string)
  (type_ : string) (line : N) (message : string) : list string :=
  messages ++ [type_ +++ ":" +++ format_d width line +++ ": " +++ message].

(** The pattern of [re.match] on an error line, piece by piece:
    [^.+?]  [:]  [.+?]  [:]  [(?P<line>\d+)]  [: ]  [(?P<message>.+)]  [$]. *)
Definition error_regex : regex :=
  cat [ MinPlus dot; Lit ":"; MinPlus dot; Lit ":";
        Group "line" (Plus digit); Lit ": "; Group "message" (Plus dot);
        AtEnd ].

(** The loop over [errors.split("\n")]. *)
Fixpoint error_messages (width : nat) (lines : list string)
  (messages : list string) : list string :=
  match lines with
  | [] => messages
  | error :: rest =>
      match re_match error_regex (rstrip CR error) with
      | Some m =>
          match group m "line", group m "message" with
          | Some l, Some msg =>
              error_messages width rest (add_message width messages "E" (int l) msg)
          | _, _ => error_messages width rest messages
          end
      | None => error_messages width rest messages
      end
  end.

Definition is_main (chunk : option chunk_kind) : bool :=
  match chunk with
  | Some Main => true
  | _ => false
  end.

Definition is_set (a : action) : bool :=
  match a with
  | Set_ => true
  | Get => false
  end.

(** The loop under [if set_globals_in_main]: the two ignore lists after it. *)
Fixpoint main_chunk_sets (global_refs : list global_ref)
  (ignore_global_get ignore_global_set : list (option string))
  : list (option string) * list (option string) :=
  match global_refs with
  | [] => (ignore_global_get, ignore_global_set)
  | (action, _, name, chunk) :: rest =>
      if negb (is_set action) || negb (is_main chunk) then
        main_chunk_sets rest ignore_global_get ignore_global_set
      else
        main_chunk_sets rest (ignore_global_get ++ [name])
                        (ignore_global_set ++ [name])
  end.

(** What the classification loop works with. *)
Record config : Type := Config {
  ignore_global_get : list (option string);
  ignore_global_set : list (option string);
  declared_globals : list string;
  cache_globals : bool
}.

(** [true] when the body of the classification loop reaches a [continue]
    for this reference. *)
Definition skipped (cfg : config) (ref : global_ref) : bool :=
  let '(action, _, name, chunk) := ref in
  match action with
  | Get =>
      if mem name (ignore_global_get cfg) then true
      else if mem name (map Some (declared_globals cfg)) then
             if negb (cache_globals cfg) then true
             else if is_main chunk then true
             else false
           else false
  | Set_ =>
      if mem name [Some "_"] then true
      else if mem name (ignore_global_set cfg) then true
      else false
  end.

(** The classification loop, [warnings] being the list it appends to. *)
Fixpoint collect_warnings (cfg : config) (global_refs : list global_ref)
  (warnings : list warning) : list warning :=
  match global_refs with
  | [] => warnings
  | ((action, line, name, _) as ref) :: rest =>
      if skipped cfg ref then collect_warnings cfg rest warnings
      else collect_warnings cfg rest (warnings ++ [(line, action, name)])
  end.

(** Comparison of names: two [None] are equal, two [str] compare by code
    points, [None] against a [str] has no order. *)
Definition name_compare (a b : option string) : result comparison :=
  match a, b with
  | None, None => Ok Eq
  | Some x, Some y => Ok (String.compare x y)
  | _, _ => Raise TypeError
  end.

(** Comparison of the tuples [(line, action, name)]: the first component
    that differs decides. *)
Definition tuple_compare (v w : warning) : result comparison :=
  let '(l1, a1, n1) := v in
  let '(l2, a2, n2) := w in
  match N.compare l1 l2 with
  | Eq =>
      match String.compare (action_name a1) (action_name a2) with
      | Eq => name_compare n1 n2
      | c => Ok c
      end
  | c => Ok c
  end.

Definition tuple_le (v w : warning) : bool :=
  match tuple_compare v w with
  | Ok Gt => false
  | Ok _ => true
  | Raise _ => false
  end.

Definition comparable (v w : warning) : bool :=
  match tuple_compare v w with
  | Ok _ => true
  | Raise _ => false
  end.

Fixpoint insert (w : warning) (l : list warning) : list warning :=
  match l with
  | [] => [w]
  | x :: l' => if tuple_le w x then w :: l else x :: insert w l'
  end.

Fixpoint insertion_sort (l : list warning) : list warning :=
  match l with
  | [] => []
  | w :: l' => insert w (insertion_sort l')
  end.

(** [warnings.sort()]: the stable ascending arrangement under the tuple
    comparison.  Ordering two entries that agree on line and action needs
    their names compared, which raises [TypeError] for [None] against a
    [str]. *)
Definition list_sort (warnings : list warning) : result (list warning) :=
  if forallb (fun v => forallb (comparable v) warnings) warnings
  then Ok (insertion_sort warnings)
  else Raise TypeError.

(** ["{}".format(name)] *)
Definition name_text (name : option string) : string :=
  match name with
  | Some s => s
  | None => "None"
  end.

(** The final loop: one ["W"] message per warning. *)
Fixpoint warning_messages (width : nat) (warnings : list warning)
  (messages : list string) : list string :=
  match warnings with
  | [] => messages
  | (line, action, name) :: rest =>
      warning_messages width rest
        (add_message width messages "W" line
           ("global " +++ action_name action +++ " of '" +++ name_text name +++ "'"))
  end.

(** The directives of [source] as the classification loop sees them, after
    the main-chunk rule. *)
Definition effective_config (source : string) (global_refs : list global_ref)
  (apis : list string) : config :=
  let '(ignore_get, ignore_set, set_globals_in_main, cache) :=
    get_directives source in
  let '(ignore_get, ignore_set) :=
    if set_globals_in_main
    then main_chunk_sets global_refs (map Some ignore_get) (map Some ignore_set)
    else (map Some ignore_get, map Some ignore_set) in
  Config ignore_get ignore_set (lua51_builtins ++ cc_builtins ++ apis) cache.

(** The list [warnings] before [warnings.sort()]. *)
Definition emitted_warnings (source listing : string) : result (list warning) :=
  let instructions := parse_bytecode listing in
  apis <- get_apis instructions ;;
  let global_refs := get_global_refs instructions in
  Ok (collect_warnings (effective_config source global_refs apis) global_refs []).

(** The list [warnings] after [warnings.sort()]. *)
Definition sorted_warnings (source listing : string) : result (list warning) :=
  warnings <- emitted_warnings source listing ;;
  list_sort warnings.

Section Check.

(** The run of the compiler in [get_bytecode_listing],
    [proc.communicate(source)]: from the source to the bytes of
    [(stdout, stderr)]. *)
Variable communicate : string -> string * string.

(** [get_bytecode_listing]: the two outputs decoded, the output channel
    first. *)
Definition get_bytecode_listing (source : string) : result (string * string) :=
  let '(stdout, stderr) := communicate source in
  listing <- decode_ascii stdout ;;
  errors <- decode_ascii stderr ;;
  Ok (listing, errors).

Definition check (source : string) : result (list string) :=
  let width := line_width source in
  output <- get_bytecode_listing source ;;
  let '(listing, errors) := output in
  match errors with
  | String _ _ => Ok (error_messages width (split NL errors) [])
  | EmptyString =>
      warnings <- sorted_warnings source listing ;;
      Ok (warning_messages width warnings [])
  end.

End Check.

(* ================================================================== *)
(** ** Sample runs *)

Definition unlines (l : list string) : string :=
  String.concat (String NL EmptyString) l.

Definition ins_line (pc line : string) (op operands : string) : string :=
  String TAB pc +++ String TAB ("[" +++ line +++ "]") +++ String TAB op
    +++ String TAB operands.

Definition ins_line_info (pc line : string) (op operands info : string) : string :=
  ins_line pc line op operands +++ String TAB ("; " +++ info).

Definition quoted (s : string) : string :=
  String DQUOTE (s +++ String DQUOTE EmptyString).

Definition luac_gives (listing errors : string) : string -> string * string :=
  fun _ => (listing, errors).

Definition sample_listing : string :=
  unlines [ "main <stdin:0,0> (5 instructions, 20 bytes at 0x55)";
          "0+ params, 2 slots, 0 upvalues, 0 locals, 4 constants, 0 functions";
          ins_line_info "1" "1" "LOADK    " "0 -2" "1";
          ins_line_info "2" "1" "SETGLOBAL" "0 -1" "b";
          ins_line_info "3" "1" "LOADK    " "0 -4" "2";
          ins_line_info "4" "1" "SETGLOBAL" "0 -3" "a";
          ins_line "5" "1" "RETURN   " "0 1";
          EmptyString ].

(* ================================================================== *)
(** ** Notions used in the statements *)

(** [binds r g]: every match of [r] leaves group [g] bound. *)
Fixpoint binds (r : regex) (g : string) : bool :=
  match r with
  | Cat r1 r2 => binds r1 g || binds r2 g
  | Group g' r' => String.eqb g g' || binds r' g
  | _ => false
  end.

Definition bound (c : captures) (g : string) : Prop := group c g <> None.

Definition warning_of (ref : global_ref) : warning :=
  let '(action, line, name, _) := ref in (line, action, name).

(** An error line that matches, as [(line, message)]. *)
Definition error_of_line (error : string) : option (N * string) :=
  match re_match error_regex (rstrip CR error) with
  | Some m =>
      match group m "line", group m "message" with
      | Some l, Some msg => Some (int l, msg)
      | _, _ => None
      end
  | None => None
  end.

Fixpoint parsed_errors (lines : list string) : list (N * string) :=
  match lines with
  | [] => []
  | error :: rest =>
      match error_of_line error with
      | Some d => d :: parsed_errors rest
      | None => parsed_errors rest
      end
  end.

Definition error_message (width : nat) (d : N * string) : string :=
  "E" +++ ":" +++ format_d width (fst d) +++ ": " +++ snd d.

Definition warning_message (width : nat) (w : warning) : string :=
  let '(line, action, name) := w in
  "W" +++ ":" +++ format_d width line +++ ": " +++
  ("global " +++ action_name action +++ " of '" +++ name_text name +++ "'").

(** The names the main-chunk rule declares: those written in ["main"]. *)
Fixpoint main_set_names (global_refs : list global_ref) : list (option string) :=
  match global_refs with
  | [] => []
  | (action, _, name, chunk) :: rest =>
      if negb (is_set action) || negb (is_main chunk) then main_set_names rest
      else name :: main_set_names rest
  end.

Definition sample_errors : string :=
  unlines [ "luac: stdin:5: unexpected symbol near '='"; EmptyString ].


Definition sample_source_cached : string :=
  unlines [ "-- lint-check-globals-cached";
            "function f() print(1) end"; EmptyString ].

Definition sample_source_main_sets : string :=
  unlines [ "-- lint-set-globals-in-main-chunk"; "b = 1 a = 2"; EmptyString ].







Definition chunk_of (ins : instruction) : option chunk_kind :=
  let '(chunk, _, _, _) := ins in chunk.

(** A line the parser takes for a chunk header. *)
Definition is_header (line : string) : bool :=
  startswith (rstrip CR line) "main <" || startswith (rstrip CR line) "function <".

Definition headerless_listing : string := ins_line "1" "1" "RETURN   " "0 1".

(** The output unit of the specification: severity, line and text. *)
Definition diagnostic : Type := (string * N * string)%type.

Definition warning_text (w : warning) : string :=
  let '(_, action, name) := w in
  "global " +++ action_name action +++ " of '" +++ name_text name +++ "'".

(** What [check] reports, before it is put into text. *)
Definition diagnostics (luac : string -> string * string) (source : string)
  : result (list diagnostic) :=
  output <- get_bytecode_listing luac source ;;
  let '(listing, errors) := output in
  match errors with
  | String _ _ =>
      Ok (map (fun d => ("E", fst d, snd d)) (parsed_errors (split NL errors)))
  | EmptyString =>
      warnings <- sorted_warnings source listing ;;
      Ok (map (fun w => ("W", fst (fst w), warning_text w)) warnings)
  end.

(** [SEVERITY:LINE: text], the line field written by [field]. *)
Definition render (field : nat -> N -> string) (width : nat) (d : diagnostic)
  : string :=
  let '(severity, line, text) := d in
  severity +++ ":" +++ field width line +++ ": " +++ text.

Definition ten_line_source : string :=
  unlines [ EmptyString; EmptyString; "bar()"; EmptyString; EmptyString;
            EmptyString; EmptyString; EmptyString; EmptyString; EmptyString;
            EmptyString ].

Definition ten_line_listing : string :=
  unlines [ "main <stdin:0,0> (3 instructions, 12 bytes at 0x55)";
            "0+ params, 2 slots, 0 upvalues, 0 locals, 1 constant, 0 functions";
            ins_line_info "1" "3" "GETGLOBAL" "0 -1" "bar";
            ins_line "2" "3" "CALL     " "0 1 1";
            ins_line "3" "10" "RETURN   " "0 1";
            EmptyString ].

Definition name_le (a b : option string) : Prop :=
  match a, b with
  | None, None => True
  | Some x, Some y => String.leb x y = true
  | _, _ => False
  end.

(** The order of [warnings.sort()]: by line; at one line ["get"] before
    ["set"]; at one line and action by name. *)
Definition warning_le (v w : warning) : Prop :=
  let '(l1, a1, n1) := v in
  let '(l2, a2, n2) := w in
  (l1 < l2)%N \/
  (l1 = l2 /\ ((a1 = Get /\ a2 = Set_) \/ (a1 = a2 /\ name_le n1 n2))).

Definition line_of (w : warning) : N := fst (fst w).

(** The order the specification words: by line only, entries of one line
    staying in the order of the classification loop. *)
Fixpoint insert_by_line (w : warning) (l : list warning) : list warning :=
  match l with
  | [] => [w]
  | x :: l' =>
      if (line_of w <=? line_of x)%N then w :: l else x :: insert_by_line w l'
  end.

Fixpoint sort_by_line (l : list warning) : list warning :=
  match l with
  | [] => []
  | w :: l' => insert_by_line w (sort_by_line l')
  end.

(** Every character of [s] is in the class [p]. *)
Fixpoint all (p : cls) (s : string) : bool :=
  match s with
  | EmptyString => true
  | String a s' => p a && all p s'
  end.

(** [s] is empty or ends with a slash: the directories of a path. *)
Fixpoint slash_terminated (s : string) : bool :=
  match s with
  | EmptyString => true
  | String a s' =>
      match s' with
      | EmptyString => Ascii.eqb a "/"
      | String _ _ => slash_terminated s'
      end
  end.

(** What is left of the pattern of [get_apis] after the opening quote and
    [.*?]: the group, the closing quote and [$]. *)
Definition api_tail : cont captures :=
  fun s c =>
    rmatch captures
      (cat [ Group "api" (Plus not_slash); Lit (String DQUOTE EmptyString); AtEnd ])
      s c (fun _ c' => Some c').

Definition opcode_at (instructions : list instruction) (i : nat) : option string :=
  match nth_error instructions i with
  | Some (_, _, name, _) => Some name
  | None => None
  end.

(** The four instructions of the idiom stand at [i .. i+3] and the constant
    loaded is [path]. *)
Definition idiom_at (instructions : list instruction) (i : nat) (path : string)
  : Prop :=
  exists c0 l0 loader c1 l1 c2 l2 c3 l3 info3,
    nth_error instructions i = Some (c0, l0, "GETGLOBAL", Some loader)
    /\ (loader = "os" \/ loader = "bapil")
    /\ nth_error instructions (i + 1) =
       Some (c1, l1, "GETTABLE", Some (quoted "loadAPI"))
    /\ nth_error instructions (i + 2) = Some (c2, l2, "LOADK", Some path)
    /\ nth_error instructions (i + 3) = Some (c3, l3, "CALL", info3).

Definition loader_listing : string :=
  unlines [ "main <stdin:0,0> (10 instructions, 40 bytes at 0x55)";
            "0+ params, 2 slots, 0 upvalues, 0 locals, 6 constants, 0 functions";
            ins_line_info "1" "1" "GETGLOBAL" "0 -1" "os";
            ins_line_info "2" "1" "GETTABLE " "0 0 -2" (quoted "loadAPI");
            ins_line_info "3" "1" "LOADK    " "1 -3" (quoted "rom/apis/foo");
            ins_line "4" "1" "CALL     " "0 2 1";
            ins_line_info "5" "2" "GETGLOBAL" "0 -4" "foo";
            ins_line_info "6" "2" "GETTABLE " "0 0 -5" (quoted "bar");
            ins_line "7" "2" "CALL     " "0 1 1";
            ins_line_info "8" "3" "GETGLOBAL" "0 -6" "bar2";
            ins_line "9" "3" "CALL     " "0 1 1";
            ins_line "10" "3" "RETURN   " "0 1";
            EmptyString ].

Definition loader_source : string :=
  unlines [ "os.loadAPI(" +++ quoted "rom/apis/foo" +++ ")";
            "foo.bar()"; "bar2()"; EmptyString ].

(** The module of [loader_source] read inside a function, in a source that
    asks for the check of cached globals. *)
Definition cached_loader_source : string :=
  unlines [ "-- lint-check-globals-cached";
            "os.loadAPI(" +++ quoted "rom/apis/foo" +++ ")";
            "local function f() foo.bar() end"; EmptyString ].

Definition cached_loader_listing : string :=
  unlines [ "main <stdin:0,0> (6 instructions, 24 bytes at 0x55)";
            "0+ params, 2 slots, 0 upvalues, 1 local, 3 constants, 1 function";
            ins_line_info "1" "2" "GETGLOBAL" "0 -1" "os";
            ins_line_info "2" "2" "GETTABLE " "0 0 -2" (quoted "loadAPI");
            ins_line_info "3" "2" "LOADK    " "1 -3" (quoted "rom/apis/foo");
            ins_line "4" "2" "CALL     " "0 2 1";
            ins_line_info "5" "3" "CLOSURE  " "0 0" "0x56";
            ins_line "6" "3" "RETURN   " "0 1";
            EmptyString;
            "function <stdin:3,3> (4 instructions, 16 bytes at 0x56)";
            "0 params, 2 slots, 0 upvalues, 0 locals, 2 constants, 0 functions";
            ins_line_info "1" "3" "GETGLOBAL" "0 -1" "foo";
            ins_line_info "2" "3" "GETTABLE " "0 0 -2" (quoted "bar");
            ins_line "3" "3" "CALL     " "0 1 1";
            ins_line "4" "3" "RETURN   " "0 1";
            EmptyString ].

(** A compiler listing ends every chunk with [RETURN] and annotates every
    [LOADK]: the last instruction opens no window of the loader idiom, and
    no [LOADK] lacks its constant. *)
Definition well_terminated (instructions : list instruction) : Prop :=
  (forall i name,
      opcode_at instructions i = Some name ->
      S i = List.length instructions ->
      name <> "GETGLOBAL" /\ name <> "GETTABLE" /\ name <> "LOADK")
  /\ (forall i c l,
         nth_error instructions i <> Some (c, l, "LOADK", None)).

(* ================================================================== *)
(** ** Notions used for the rest of the program *)

(** The loop variable [chunk] of [parse_bytecode] after the lines [lines]. *)
Fixpoint chunk_after (chunk : option chunk_kind) (lines : list string)
  : option chunk_kind :=
  match lines with
  | [] => chunk
  | line :: rest =>
      if startswith (rstrip CR line) "main <" then chunk_after (Some Main) rest
      else if startswith (rstrip CR line) "function <"
           then chunk_after (Some Function) rest
           else chunk_after chunk rest
  end.

Definition CRLF : string := String CR (String NL EmptyString).
Definition LF : string := String NL EmptyString.

(** The error line matches the pattern of [check]. *)
Definition error_line_matches (error : string) : bool :=
  match re_match error_regex (rstrip CR error) with
  | Some _ => true
  | None => false
  end.

Definition sample_error_lines : list string :=
  [ "luac: stdin:5: unexpected symbol near '='"; "no line number here";
    "luac: stdin:7: '=' expected near 'x'"; EmptyString ].

(** The error text of a source that starts with the byte 195. *)
Definition non_ascii_errors : string :=
  "luac: stdin:1: unexpected symbol near '" +++ String "195"%char ("'" +++ LF).

(** An instruction line the way the compiler prints it: the index, the
    source line between brackets, the opcode padded with blanks, the
    operands, and for some opcodes a comment. *)
Definition listing_line (pc line op pad operands : string) (info : option string)
  : string :=
  String TAB EmptyString +++ pc +++ String TAB "[" +++ line
    +++ ("]" +++ String TAB EmptyString) +++ op +++ pad +++ operands
    +++ match info with
        | Some text => String TAB "; " +++ text
        | None => EmptyString
        end.

(** The next character of [v], if any, is outside the class [p]. *)
Definition stops (p : cls) (v : string) : Prop :=
  match v with
  | EmptyString => True
  | String a _ => p a = false
  end.

(** Neither a newline nor a carriage return. *)
Definition plain : cls :=
  fun a => negb (Ascii.eqb a NL) && negb (Ascii.eqb a CR).

(** Not a colon. *)
Definition not_colon : cls := fun a => negb (Ascii.eqb a ":").

Definition not_cr : cls := fun a => negb (Ascii.eqb a CR).

(** An error line the way the compiler prints it:
    [program:file:LINE: message]. *)
Definition error_line (program file digits message : string) : string :=
  program +++ ":" +++ file +++ ":" +++ digits +++ ": " +++ message.

(** The name of a reference. *)
Definition ref_name (ref : global_ref) : option string :=
  let '(_, _, name, _) := ref in name.

(** The three lists and two flags of [get_directives], by name. *)
Definition directive_get_names (source : string) : list string :=
  directive_names ignore_global_regex source
    ++ directive_names ignore_global_get_regex source.

Definition directive_set_names (source : string) : list string :=
  directive_names ignore_global_regex source
    ++ directive_names ignore_global_set_regex source.

(** The listing of [print = nil]. *)
Definition print_listing : string :=
  unlines [ "main <stdin:0,0> (3 instructions, 12 bytes at 0x55)";
            ins_line "1" "1" "LOADNIL  " "0 0";
            ins_line_info "2" "1" "SETGLOBAL" "0 -1" "print";
            ins_line "3" "1" "RETURN   " "0 1";
            EmptyString ].

Definition directive_source : string :=
  unlines [ "-- lint-ignore-global: foo, bar";
            "-- lint-ignore-global-get: baz";
            "-- lint-ignore-global-set: qux"; EmptyString ].

(** *** find_luac and main *)

(** What [find_luac] asks of the host it runs on. *)
Record host : Type := Host {
  environ_LUAC51 : option string;  (* os.environ.get("LUAC51") *)
  os_name : string;                (* os.name *)
  local_luac : string;             (* luac5.1.exe joined to the directory of the script *)
  which_luac : option string;      (* shutil.which("luac5.1") *)
  access_x : string -> bool        (* os.access(path, os.X_OK) *)
}.

(** [find_luac]: the global [LUAC] after the call, and what the call
    returns.  [shutil.which] answers [None] when nothing is found, and
    [os.access(None, os.X_OK)] raises [TypeError]. *)
Definition find_luac (h : host) : option string * result bool :=
  let search :=
    match which_luac h with
    | Some path => (Some path, Ok (access_x h path))
    | None => (None, Raise TypeError)
    end in
  match environ_LUAC51 h with
  | Some (String a s) => (Some (String a s), Ok (access_x h (String a s)))
  | _ =>
      if String.eqb (os_name h) "nt" then
        if access_x h (local_luac h) then (Some (local_luac h), Ok true)
        else search
      else search
  end.

(** How a run of [main] can end otherwise than by [return]. *)
Inductive failure : Type :=
| FindRaised (e : exn)     (* an exception of [find_luac] *)
| OpenFailed               (* [open(argv[1], "rb")] raised *)
| CheckRaised (e : exn).   (* an exception of [check] *)

Inductive outcome : Type :=
| Exit (code : N)
| Uncaught (f : failure).

(** The loop [for message in ...: print(message)], [out] being the lines
    printed so far. *)
Fixpoint print_all (messages : list string) (out : list string) : list string :=
  match messages with
  | [] => out
  | message :: rest => print_all rest (out ++ [message])
  end.

(** [len(argv) < 2 or argv[1] == "-"] *)
Definition reads_stdin (argv : list string) : bool :=
  Nat.ltb (List.length argv) 2 ||
  match nth_error argv 1 with
  | Some arg => String.eqb arg "-"
  | None => false
  end.

(** [main]: the lines printed and how the run ends.  [run_luac path] is
    the compiler run of [get_bytecode_listing] with the program [LUAC];
    [read_file] is [open(name, "rb").read()], [None] when it raises. *)
Definition main (h : host) (run_luac : string -> string -> string * string)
  (stdin : string) (read_file : string -> option string) (argv : list string)
  : list string * outcome :=
  match find_luac h with
  | (_, Raise e) => ([], Uncaught (FindRaised e))
  | (_, Ok false) => (["error: luac5.1 not found"], Exit 1)
  | (None, Ok true) => ([], Uncaught (CheckRaised TypeError))
  | (Some luac, Ok true) =>
      let source :=
        if reads_stdin argv then Some stdin
        else match nth_error argv 1 with
             | Some name => read_file name
             | None => None
             end in
      match source with
      | None => ([], Uncaught OpenFailed)
      | Some source =>
          match check (run_luac luac) source with
          | Ok messages => (print_all messages [], Exit 0)
          | Raise e => ([], Uncaught (CheckRaised e))
          end
      end
  end.

(** The texts the group of a list marker can hold: a word, then any
    number of times a comma, blanks and a word. *)
Inductive names_text : string -> Prop :=
| names_one (w : string) :
    w <> EmptyString -> all word w = true -> names_text w
| names_more (t sp w : string) :
    names_text t -> all space sp = true ->
    w <> EmptyString -> all word w = true ->
    names_text (t +++ String "," (sp +++ w)).

(** What follows the first word: commas, blanks and words. *)
Inductive names_tail : string -> Prop :=
| tail_nil : names_tail EmptyString
| tail_cons (sp w t : string) :
    all space sp = true -> w <> EmptyString -> all word w = true ->
    names_tail t -> names_tail (String "," (sp +++ w) +++ t).

(** A host on which no compiler can be found. *)
Definition bare_host : host :=
  Host None "posix" "luac5.1.exe" None (fun _ => false).

(** The instruction reads a loader object: where a window can open. *)
Definition reads_loader (ins : instruction) : bool :=
  let '(_, _, name, info) := ins in
  String.eqb name "GETGLOBAL" && is_loader info.

(** A host whose [LUAC51] names a compiler, the search path holding another. *)
Definition env_host : host :=
  Host (Some "/opt/lua/luac") "posix" "luac5.1.exe" (Some "/usr/bin/luac5.1")
       (fun path => String.eqb path "/opt/lua/luac").

(* ================================================================== *)
(** ** Facts about the matcher *)

Lemma max_repeat_one_inv (R : Type) (p : cls) (k : cont R) (c : captures) (x : R) :
  forall s, max_repeat_one R p s c k = Some x -> exists s', k s' c = Some x.
Proof.
  induction s as [|a s IH]; simpl; intros H.
  - eauto.
  - destruct (p a); [|eauto].
    destruct (max_repeat_one R p s c k) eqn:E; [|eauto].
    inversion H; subst. auto.
Qed.

Lemma min_repeat_one_inv (R : Type) (p : cls) (k : cont R) (c : captures) (x : R) :
  forall s, min_repeat_one R p s c k = Some x -> exists s', k s' c = Some x.
Proof.
  induction s as [|a s IH]; simpl; intros H.
  - destruct (k EmptyString c) eqn:E; [inversion H; subst; eauto | discriminate].
  - destruct (k (String a s) c) eqn:E; [inversion H; subst; eauto |].
    destruct (p a); [auto | discriminate].
Qed.

Lemma rmatch_binds (R : Type) (x : R) :
  forall r s c (k : cont R),
    rmatch R r s c k = Some x ->
    exists s' c', k s' c' = Some x /\
                  forall g, binds r g = true \/ bound c g -> bound c' g.
Proof.
  induction r as [ | l | p | r1 IH1 r2 IH2 | p | p | r IH | r IH | g0 r IH | ];
    intros s c k H; simpl in H.
  - exists s, c. split; [assumption|]. intros g [Hg|Hg]; [discriminate|assumption].
  - destruct (lit l s) as [s'|]; [|discriminate].
    exists s', c. split; [assumption|]. intros g [Hg|Hg]; [discriminate|assumption].
  - destruct s as [|a s]; [discriminate|]. destruct (p a); [|discriminate].
    exists s, c. split; [assumption|]. intros g [Hg|Hg]; [discriminate|assumption].
  - apply IH1 in H. destruct H as (s1 & c1 & H & B1).
    apply IH2 in H. destruct H as (s2 & c2 & H & B2).
    exists s2, c2. split; [assumption|].
    intros g [Hg|Hg]; simpl in *.
    + apply orb_true_iff in Hg. destruct Hg as [Hg|Hg]; auto.
    + auto.
  - apply max_repeat_one_inv in H. destruct H as (s' & H).
    exists s', c. split; [assumption|]. intros g [Hg|Hg]; [discriminate|assumption].
  - apply min_repeat_one_inv in H. destruct H as (s' & H).
    exists s', c. split; [assumption|]. intros g [Hg|Hg]; [discriminate|assumption].
  - revert H. generalize (String.length s) as fuel. intros fuel. revert s c.
    induction fuel as [|fuel IHf]; intros s c H.
    + exists s, c. split; [assumption|]. intros g [Hg|Hg]; [discriminate|assumption].
    + match type of H with
      | match ?m with _ => _ end = _ => destruct m eqn:E
      end.
      * inversion H; subst. apply IH in E. destruct E as (s1 & c1 & E & B1).
        destruct (Nat.ltb (String.length s1) (String.length s)); [|discriminate].
        apply IHf in E. destruct E as (s2 & c2 & E & B2).
        exists s2, c2. split; [assumption|].
        intros g [Hg|Hg]; [discriminate|]. apply B2. right. apply B1. right. assumption.
      * exists s, c. split; [assumption|]. intros g [Hg|Hg]; [discriminate|assumption].
  - destruct (rmatch R r s c k) eqn:E.
    + inversion H; subst. apply IH in E. destruct E as (s1 & c1 & E & B1).
      exists s1, c1. split; [assumption|].
      intros g [Hg|Hg]; [discriminate|]. apply B1. right. assumption.
    + exists s, c. split; [assumption|]. intros g [Hg|Hg]; [discriminate|assumption].
  - apply IH in H. destruct H as (s1 & c1 & H & B1).
    exists s1, ((g0, consumed s s1) :: c1). split; [assumption|].
    intros g Hg. unfold bound. simpl.
    destruct (String.eqb g g0) eqn:Eg; [discriminate|].
    apply B1. destruct Hg as [Hg|Hg]; [|right; assumption].
    left. simpl in Hg. rewrite Eg in Hg. assumption.
  - destruct (at_end s); [|discriminate].
    exists s, c. split; [assumption|]. intros g [Hg|Hg]; [discriminate|assumption].
Qed.

(** A group that [r] always binds is there after [re.match]. *)
Lemma re_match_group (r : regex) (s : string) (m : captures) (g : string) :
  re_match r s = Some m -> binds r g = true -> exists v, group m g = Some v.
Proof.
  intros H B. unfold re_match in H. apply rmatch_binds in H.
  destruct H as (s' & c' & H & Hb). inversion H; subst.
  specialize (Hb g (or_introl B)). unfold bound in Hb.
  destruct (group m g) as [v|]; [eauto | congruence].
Qed.

(* ================================================================== *)
(** ** Facts about the loops *)

Lemma get_apis_body_advances (instructions : list instruction) (i : nat)
  (apis : list string) (st : nat * list string) :
  get_apis_body instructions i apis = Ok st -> i < fst st.
Proof.
  unfold get_apis_body, bind. intros H.
  repeat match type of H with
         | context [match ?x with _ => _ end] => destruct x
         end;
    inversion H; simpl; lia.
Qed.

(** Fuel beyond [n - i] changes nothing: the loop has stopped by itself. *)
Lemma get_apis_loop_fuel (instructions : list instruction) :
  forall fuel1 fuel2 i apis,
    List.length instructions - i <= fuel1 ->
    List.length instructions - i <= fuel2 ->
    get_apis_loop fuel1 instructions i apis = get_apis_loop fuel2 instructions i apis.
Proof.
  induction fuel1 as [|fuel1 IH]; intros fuel2 i apis H1 H2.
  - destruct fuel2; simpl;
      destruct (Nat.ltb i (List.length instructions)) eqn:E; try reflexivity;
      apply Nat.ltb_lt in E; lia.
  - destruct fuel2; simpl;
      destruct (Nat.ltb i (List.length instructions)) eqn:E; try reflexivity.
    + apply Nat.ltb_lt in E; lia.
    + destruct (get_apis_body instructions i apis) as [st|e] eqn:B; simpl; [|reflexivity].
      apply get_apis_body_advances in B. apply IH; lia.
Qed.

Lemma collect_warnings_acc (cfg : config) :
  forall refs ws, collect_warnings cfg refs ws = ws ++ collect_warnings cfg refs [].
Proof.
  induction refs as [|[[[a l] n] ch] refs IH]; intros ws; cbn [collect_warnings].
  - now rewrite app_nil_r.
  - destruct (skipped cfg (a, l, n, ch)); [apply IH|].
    rewrite (IH (ws ++ _)), (IH ([] ++ _)), <- app_assoc. reflexivity.
Qed.

Lemma collect_warnings_cons (cfg : config) (ref : global_ref) (refs : list global_ref) :
  collect_warnings cfg (ref :: refs) [] =
  (if skipped cfg ref then [] else [warning_of ref]) ++ collect_warnings cfg refs [].
Proof.
  destruct ref as [[[a l] n] ch]. cbn [collect_warnings warning_of].
  destruct (skipped cfg (a, l, n, ch)) eqn:E; [reflexivity|].
  apply (collect_warnings_acc cfg refs ([] ++ [(l, a, n)])).
Qed.

Lemma collect_warnings_app (cfg : config) :
  forall pre post,
    collect_warnings cfg (pre ++ post) [] =
    collect_warnings cfg pre [] ++ collect_warnings cfg post [].
Proof.
  induction pre as [|ref pre IH]; intros post; [reflexivity|].
  rewrite <- app_comm_cons, !collect_warnings_cons, IH, app_assoc. reflexivity.
Qed.

(** The warnings are those of the references not skipped, in their order. *)
Lemma collect_warnings_filter (cfg : config) :
  forall refs,
    collect_warnings cfg refs [] =
    map warning_of (filter (fun ref => negb (skipped cfg ref)) refs).
Proof.
  induction refs as [|ref refs IH]; [reflexivity|].
  rewrite collect_warnings_cons, IH. simpl.
  destruct (skipped cfg ref); reflexivity.
Qed.

Lemma in_collect_warnings (cfg : config) (refs : list global_ref) (w : warning) :
  In w (collect_warnings cfg refs []) ->
  exists ref, In ref refs /\ skipped cfg ref = false /\ w = warning_of ref.
Proof.
  rewrite collect_warnings_filter, in_map_iff.
  intros (ref & Hw & Hin). apply filter_In in Hin. destruct Hin as [Hin Hs].
  exists ref. repeat split; auto. now destruct (skipped cfg ref).
Qed.

Lemma error_messages_map (width : nat) :
  forall lines messages,
    error_messages width lines messages =
    messages ++ map (error_message width) (parsed_errors lines).
Proof.
  induction lines as [|error lines IH]; intros messages; simpl.
  - now rewrite app_nil_r.
  - unfold error_of_line.
    destruct (re_match error_regex (rstrip CR error)) as [m|]; [|apply IH].
    destruct (group m "line") as [l|]; [|apply IH].
    destruct (group m "message") as [msg|]; [|apply IH].
    rewrite IH. unfold add_message. rewrite <- app_assoc. reflexivity.
Qed.

Lemma warning_messages_map (width : nat) :
  forall warnings messages,
    warning_messages width warnings messages =
    messages ++ map (warning_message width) warnings.
Proof.
  induction warnings as [|[[l a] n] warnings IH]; intros messages; simpl.
  - now rewrite app_nil_r.
  - rewrite IH. unfold add_message. rewrite <- app_assoc. reflexivity.
Qed.

(** Every error line that matches yields a message: the two groups the
    loop reads are bound by every match. *)
Lemma error_of_line_matches (error : string) (m : captures) :
  re_match error_regex (rstrip CR error) = Some m ->
  exists l msg, group m "line" = Some l /\ group m "message" = Some msg /\
                error_of_line error = Some (int l, msg).
Proof.
  intros H. unfold error_of_line. rewrite H.
  destruct (re_match_group _ _ _ "line" H eq_refl) as [l Hl].
  destruct (re_match_group _ _ _ "message" H eq_refl) as [msg Hm].
  exists l, msg. rewrite Hl, Hm. auto.
Qed.

Lemma mem_In (x : option string) (l : list (option string)) :
  mem x l = true <-> In x l.
Proof.
  unfold mem. rewrite existsb_exists. split.
  - intros (y & Hin & E). destruct x as [a|], y as [b|]; try discriminate; auto.
    apply String.eqb_eq in E. subst. assumption.
  - intros Hin. exists x. split; [assumption|].
    destruct x as [a|]; [apply String.eqb_refl | reflexivity].
Qed.

Lemma mem_app (x : option string) (l1 l2 : list (option string)) :
  mem x (l1 ++ l2) = mem x l1 || mem x l2.
Proof. apply existsb_app. Qed.

Lemma main_chunk_sets_appends :
  forall refs ig igs,
    main_chunk_sets refs ig igs =
    (ig ++ main_set_names refs, igs ++ main_set_names refs).
Proof.
  induction refs as [|[[[a l] n] ch] refs IH]; intros ig igs; simpl.
  - now rewrite !app_nil_r.
  - destruct (negb (is_set a) || negb (is_main ch)); [apply IH|].
    rewrite IH, <- !app_assoc. reflexivity.
Qed.

Lemma in_main_set_names (refs : list global_ref) (line : N) (name : option string) :
  In (Set_, line, name, Some Main) refs -> In name (main_set_names refs).
Proof.
  induction refs as [|[[[a l] n] ch] refs IH]; simpl; [auto|].
  intros [E|Hin].
  - inversion E; subst. simpl. auto.
  - destruct (negb (is_set a) || negb (is_main ch)); simpl; auto.
Qed.

Lemma effective_config_cache (source : string) (refs : list global_ref)
  (apis : list string) :
  cache_globals (effective_config source refs apis) =
  contains "lint-check-globals-cached" source.
Proof.
  unfold effective_config, get_directives. cbv beta iota zeta.
  destruct (contains "lint-set-globals-in-main-chunk" source);
    [destruct (main_chunk_sets _ _ _)|]; reflexivity.
Qed.

Lemma effective_config_declared (source : string) (refs : list global_ref)
  (apis : list string) :
  declared_globals (effective_config source refs apis) =
  lua51_builtins ++ cc_builtins ++ apis.
Proof.
  unfold effective_config, get_directives. cbv beta iota zeta.
  destruct (contains "lint-set-globals-in-main-chunk" source);
    [destruct (main_chunk_sets _ _ _)|]; reflexivity.
Qed.

Lemma effective_config_main_sets (source : string) (refs : list global_ref)
  (apis : list string) (name : option string) :
  contains "lint-set-globals-in-main-chunk" source = true ->
  In name (main_set_names refs) ->
  In name (ignore_global_get (effective_config source refs apis)) /\
  In name (ignore_global_set (effective_config source refs apis)).
Proof.
  intros Hflag Hin. unfold effective_config, get_directives. cbv beta iota zeta.
  rewrite Hflag, main_chunk_sets_appends. simpl.
  split; apply in_or_app; right; assumption.
Qed.

(** *** Facts about the sort *)

Lemma insert_perm (w : warning) :
  forall l, Permutation (w :: l) (insert w l).
Proof.
  induction l as [|x l IH]; simpl; [constructor; constructor|].
  destruct (tuple_le w x); [apply Permutation_refl|].
  eapply perm_trans; [apply perm_swap|]. constructor. assumption.
Qed.

Lemma insertion_sort_perm :
  forall l, Permutation l (insertion_sort l).
Proof.
  induction l as [|w l IH]; simpl; [constructor|].
  eapply perm_trans; [|apply insert_perm]. constructor. assumption.
Qed.

Lemma list_sort_perm (l ws : list warning) :
  list_sort l = Ok ws -> Permutation l ws.
Proof.
  unfold list_sort. destruct (forallb _ l); [|discriminate].
  intros H. inversion H. apply insertion_sort_perm.
Qed.

(* ================================================================== *)
(** ** Compile errors *)

Lemma split_no_sep (sep : ascii) :
  forall s, all (fun a => negb (Ascii.eqb a sep)) s = true -> split sep s = [s].
Proof.
  induction s as [|a s IH]; intros H; [reflexivity|].
  simpl in H. apply andb_true_iff in H. destruct H as [Ha Hs].
  simpl. apply negb_true_iff in Ha. rewrite Ha, (IH Hs). reflexivity.
Qed.

Lemma split_at_sep (sep : ascii) :
  forall s t, all (fun a => negb (Ascii.eqb a sep)) s = true ->
              split sep (s +++ String sep t) = s :: split sep t.
Proof.
  induction s as [|a s IH]; intros t H.
  - simpl. rewrite Ascii.eqb_refl. reflexivity.
  - simpl in H. apply andb_true_iff in H. destruct H as [Ha Hs].
    change (String a s +++ String sep t) with (String a (s +++ String sep t)).
    cbn [split]. apply negb_true_iff in Ha. rewrite Ha, (IH t Hs). reflexivity.
Qed.

Lemma split_concat_lf :
  forall ls, ls <> [] ->
             Forall (fun l => all dot l = true) ls ->
             split NL (String.concat LF ls) = ls.
Proof.
  induction ls as [|l ls IH]; intros Hne H; [congruence|].
  inversion H as [|? ? Hl Hls]; subst.
  destruct ls as [|l' ls].
  - simpl. apply split_no_sep. exact Hl.
  - change (String.concat LF (l :: l' :: ls))
      with (l +++ LF +++ String.concat LF (l' :: ls)).
    unfold LF at 1. change (String NL EmptyString +++ ?x) with (String NL x).
    rewrite split_at_sep by exact Hl. rewrite IH; [reflexivity | discriminate | exact Hls].
Qed.

Lemma get_bytecode_listing_ok
  (luac : string -> string * string) (source listing errors : string) :
  luac source = (listing, errors) ->
  isascii listing = true -> isascii errors = true ->
  get_bytecode_listing luac source = Ok (listing, errors).
Proof.
  intros H Hl He. unfold get_bytecode_listing, decode_ascii.
  rewrite H, Hl, He. reflexivity.
Qed.

(** A byte above 127 in either output makes the decode raise. *)
Lemma check_not_ascii
  (luac : string -> string * string) (source stdout stderr : string) :
  luac source = (stdout, stderr) ->
  isascii stdout && isascii stderr = false ->
  check luac source = Raise UnicodeDecodeError.
Proof.
  intros H Hb. unfold check, get_bytecode_listing, decode_ascii. rewrite H.
  destruct (isascii stdout); [|reflexivity].
  simpl in Hb. rewrite Hb. reflexivity.
Qed.

(** With a non-empty error text [check] is the loop over the error lines. *)
Lemma check_error_path
  (luac : string -> string * string) (source listing errors : string) :
  get_bytecode_listing luac source = Ok (listing, errors) ->
  errors <> EmptyString ->
  check luac source =
    Ok (map (error_message (line_width source)) (parsed_errors (split NL errors))).
Proof.
  intros Hluac Herr. unfold check. rewrite Hluac. cbn [bind].
  destruct errors as [|a errors']; [congruence|].
  rewrite error_messages_map. reflexivity.
Qed.

Lemma parsed_errors_length (lines : list string) :
  List.length (parsed_errors lines) =
  List.length (filter error_line_matches lines).
Proof.
  induction lines as [|error lines IH]; [reflexivity|].
  simpl. unfold error_line_matches at 1.
  destruct (re_match error_regex (rstrip CR error)) as [m|] eqn:E.
  - destruct (error_of_line_matches error m E) as (l & msg & _ & _ & ->).
    simpl. rewrite IH. reflexivity.
  - unfold error_of_line. rewrite E. exact IH.
Qed.

(** C1, as the code has it: when the two outputs of the compiler decode
    as ASCII and the error text, made of the lines [lines], is not empty,
    [check] returns exactly one ["E"] message per line that matches the
    pattern, in the order of the lines, and nothing else: as many messages
    as matching lines, every one an error message, and the same for every
    listing, which is neither parsed nor scanned for the loader idiom or
    for global references. *)
Theorem check_errors_short_circuit
  (luac : string -> string * string) (source listing : string)
  (lines : list string) :
  Forall (fun l => all dot l = true) lines ->
  get_bytecode_listing luac source = Ok (listing, String.concat LF lines) ->
  String.concat LF lines <> EmptyString ->
  check luac source =
    Ok (map (error_message (line_width source)) (parsed_errors lines))
  /\ List.length (parsed_errors lines) =
     List.length (filter error_line_matches lines)
  /\ (forall luac' listing',
         get_bytecode_listing luac' source = Ok (listing', String.concat LF lines) ->
         check luac' source = check luac source)
  /\ Forall (fun m => startswith m "E:" = true)
       (map (error_message (line_width source)) (parsed_errors lines)).
Proof.
  intros Hlines Hluac Herr.
  assert (Hne : lines <> []) by (intros ->; apply Herr; reflexivity).
  assert (E : forall luac0 listing0,
             get_bytecode_listing luac0 source = Ok (listing0, String.concat LF lines) ->
             check luac0 source =
             Ok (map (error_message (line_width source)) (parsed_errors lines))).
  { intros luac0 listing0 H0.
    rewrite (check_error_path luac0 source listing0 _ H0 Herr).
    rewrite (split_concat_lf lines Hne Hlines). reflexivity. }
  split; [exact (E _ _ Hluac)|]. split; [apply parsed_errors_length|]. split.
  - intros luac' listing' H'. rewrite (E _ _ H'), (E _ _ Hluac). reflexivity.
  - apply Forall_forall. intros m Hin. apply in_map_iff in Hin.
    destruct Hin as (d & <- & _). unfold startswith, error_message. simpl.
    destruct (format_d _ _ +++ _); reflexivity.
Qed.

Lemma check_errors_short_circuit_witness :
  Forall (fun l => all dot l = true) sample_error_lines
  /\ get_bytecode_listing
       (luac_gives sample_listing (String.concat LF sample_error_lines))
       "b = 1 a = 2" =
     Ok (sample_listing, String.concat LF sample_error_lines)
  /\ String.concat LF sample_error_lines <> EmptyString
  /\ check (luac_gives sample_listing (String.concat LF sample_error_lines))
       "b = 1 a = 2" =
     Ok ["E:5: unexpected symbol near '='"; "E:7: '=' expected near 'x'"].
Proof.
  assert (Hl : Forall (fun l => all dot l = true) sample_error_lines)
    by (repeat constructor).
  assert (Hg : get_bytecode_listing
                 (luac_gives sample_listing (String.concat LF sample_error_lines))
                 "b = 1 a = 2" =
               Ok (sample_listing, String.concat LF sample_error_lines))
    by (vm_compute; reflexivity).
  split; [exact Hl|]. split; [exact Hg|]. split; [discriminate|].
  exact (proj1 (check_errors_short_circuit
                  (luac_gives sample_listing (String.concat LF sample_error_lines))
                  "b = 1 a = 2" sample_listing sample_error_lines Hl Hg
                  ltac:(discriminate))).
Defined.

(** C1 as the specification words it, for every source whose compilation
    gives an error text, fails: the compiler repeats a byte above 127 of
    the source in its message, and the decode of that text raises
    [UnicodeDecodeError] before any diagnostic is made. *)
Lemma check_raises_on_non_ascii_errors :
  ~ (forall (luac : string -> string * string) source listing errors,
        luac source = (listing, errors) ->
        errors <> EmptyString ->
        exists messages, check luac source = Ok messages).
Proof.
  intros H.
  destruct (H (luac_gives EmptyString non_ascii_errors)
              (String "195"%char (String "169"%char " = 1"))
              EmptyString non_ascii_errors eq_refl ltac:(discriminate))
    as [messages Hm].
  vm_compute in Hm. discriminate.
Qed.



(* ================================================================== *)
(** ** Classification of the references *)

(** C9: a write of the discard identifier [_] yields no warning, whatever
    the directives, the declared names and the chunk: in the classification
    loop the reference leaves the warnings of the references around it
    unchanged. *)
Theorem discard_write_never_warns
  (cfg : config) (pre post : list global_ref) (line : N)
  (chunk : option chunk_kind) :
  skipped cfg (Set_, line, Some "_", chunk) = true
  /\ collect_warnings cfg (pre ++ (Set_, line, Some "_", chunk) :: post) [] =
     collect_warnings cfg pre [] ++ collect_warnings cfg post [].
Proof.
  split; [reflexivity|].
  rewrite collect_warnings_app, collect_warnings_cons. reflexivity.
Qed.

(** C6: a read of a name of the builtin or host-environment registry that
    is not in [ignore_global_get].  With [lint-check-globals-cached] in the
    source the read yields a warning exactly when it is in a function chunk
    (in the main chunk it is skipped); without the marker it yields no
    warning in either chunk. *)
Theorem registry_read_warns_only_cached_in_function
  (source : string) (refs : list global_ref) (apis : list string)
  (pre post : list global_ref) (line : N) (name : string) (chunk : chunk_kind) :
  let cfg := effective_config source refs apis in
  In name (lua51_builtins ++ cc_builtins) ->
  mem (Some name) (ignore_global_get cfg) = false ->
  collect_warnings cfg (pre ++ (Get, line, Some name, Some chunk) :: post) [] =
  collect_warnings cfg pre [] ++
  (if contains "lint-check-globals-cached" source
   then match chunk with
        | Function => [(line, Get, Some name)]
        | Main => []
        end
   else []) ++
  collect_warnings cfg post [].
Proof.
  intros cfg Hin Hig.
  rewrite collect_warnings_app, collect_warnings_cons. do 2 f_equal.
  unfold skipped. rewrite Hig.
  assert (Hd : mem (Some name) (map Some (declared_globals cfg)) = true).
  { apply mem_In. apply in_map. unfold cfg.
    rewrite effective_config_declared, app_assoc. apply in_or_app. left. assumption. }
  rewrite Hd. unfold cfg at 1. rewrite effective_config_cache.
  destruct (contains "lint-check-globals-cached" source), chunk; reflexivity.
Qed.

Lemma registry_read_warns_only_cached_in_function_witness :
  In "print" (lua51_builtins ++ cc_builtins)
  /\ mem (Some "print")
       (ignore_global_get (effective_config sample_source_cached [] [])) = false
  /\ collect_warnings (effective_config sample_source_cached [] [])
       [(Get, 2%N, Some "print", Some Function)] [] = [(2%N, Get, Some "print")]
  /\ collect_warnings (effective_config sample_source_cached [] [])
       [(Get, 2%N, Some "print", Some Main)] [] = [].
Proof.
  assert (Hin : In "print" (lua51_builtins ++ cc_builtins)).
  { apply in_or_app. left. unfold lua51_builtins. simpl. tauto. }
  assert (Hig : mem (Some "print")
                  (ignore_global_get (effective_config sample_source_cached [] [])) = false)
    by (vm_compute; reflexivity).
  split; [exact Hin|]. split; [exact Hig|]. split.
  - exact (registry_read_warns_only_cached_in_function
             sample_source_cached [] [] [] [] 2%N "print" Function Hin Hig).
  - exact (registry_read_warns_only_cached_in_function
             sample_source_cached [] [] [] [] 2%N "print" Main Hin Hig).
Defined.

(** C8: with [lint-set-globals-in-main-chunk] in the source, every name
    written in the main chunk is in both ignore lists before the
    classification loop runs, and the loop then yields no warning, read or
    write, that carries this name, wherever the reference is; it follows
    for the warnings [check] sorts and prints. *)
Theorem main_chunk_sets_declare
  (source listing : string) (line : N) (name : option string) :
  let global_refs := get_global_refs (parse_bytecode listing) in
  contains "lint-set-globals-in-main-chunk" source = true ->
  In (Set_, line, name, Some Main) global_refs ->
  (forall apis,
      let cfg := effective_config source global_refs apis in
      In name (ignore_global_get cfg) /\ In name (ignore_global_set cfg) /\
      forall refs l a, ~ In (l, a, name) (collect_warnings cfg refs []))
  /\ (forall warnings l a,
         sorted_warnings source listing = Ok warnings -> ~ In (l, a, name) warnings).
Proof.
  intros global_refs Hflag Href.
  assert (Hcfg : forall apis,
             let cfg := effective_config source global_refs apis in
             In name (ignore_global_get cfg) /\ In name (ignore_global_set cfg) /\
             forall refs l a, ~ In (l, a, name) (collect_warnings cfg refs [])).
  { intros apis cfg. subst cfg.
    destruct (effective_config_main_sets source global_refs apis name Hflag
                (in_main_set_names _ _ _ Href)) as [Hg Hs].
    split; [exact Hg|]. split; [exact Hs|].
    intros refs l a Hin. apply in_collect_warnings in Hin.
    destruct Hin as ([[[a' l'] n'] ch'] & _ & Hskip & Hw).
    inversion Hw; subst. unfold skipped in Hskip.
    apply mem_In in Hg, Hs.
    destruct a'.
    - rewrite Hg in Hskip. discriminate.
    - rewrite Hs in Hskip. destruct (mem n' [Some "_"]); discriminate. }
  split; [exact Hcfg|].
  intros warnings l a Hsorted Hin.
  unfold sorted_warnings, emitted_warnings, bind in Hsorted.
  destruct (get_apis (parse_bytecode listing)) as [apis|e]; [|discriminate].
  apply list_sort_perm in Hsorted.
  apply Permutation_sym in Hsorted.
  apply (Permutation_in _ Hsorted) in Hin.
  exact (proj2 (proj2 (Hcfg apis)) _ _ _ Hin).
Qed.

Lemma main_chunk_sets_declare_witness :
  contains "lint-set-globals-in-main-chunk" sample_source_main_sets = true
  /\ In (Set_, 1%N, Some "b", Some Main) (get_global_refs (parse_bytecode sample_listing))
  /\ sorted_warnings sample_source_main_sets sample_listing = Ok []
  /\ ~ In (1%N, Set_, Some "b") [].
Proof.
  assert (Hflag : contains "lint-set-globals-in-main-chunk" sample_source_main_sets = true)
    by (vm_compute; reflexivity).
  assert (Href : In (Set_, 1%N, Some "b", Some Main)
                    (get_global_refs (parse_bytecode sample_listing)))
    by (vm_compute; tauto).
  assert (Hsorted : sorted_warnings sample_source_main_sets sample_listing = Ok [])
    by (vm_compute; reflexivity).
  split; [exact Hflag|]. split; [exact Href|]. split; [exact Hsorted|].
  exact (proj2 (main_chunk_sets_declare sample_source_main_sets sample_listing
                  1%N (Some "b") Hflag Href) [] 1%N Set_ Hsorted).
Defined.

(* ================================================================== *)
(** ** The loader idiom at the end of the sequence *)

Lemma nth_error_next (instructions : list instruction) (i : nat) (name : string) :
  well_terminated instructions ->
  opcode_at instructions i = Some name ->
  name = "GETGLOBAL" \/ name = "GETTABLE" \/ name = "LOADK" ->
  exists ins, nth_error instructions (i + 1) = Some ins.
Proof.
  intros [Hlast _] Hop Hname.
  assert (Hlt : i < List.length instructions).
  { apply nth_error_Some. unfold opcode_at in Hop.
    destruct (nth_error instructions i); discriminate. }
  destruct (nth_error instructions (i + 1)) as [ins|] eqn:E; [eauto|].
  apply nth_error_None in E.
  assert (Hs : S i = List.length instructions) by lia.
  destruct (Hlast i name Hop Hs) as (H1 & H2 & H3).
  destruct Hname as [H|[H|H]]; congruence.
Qed.

Lemma get_apis_body_safe (instructions : list instruction) (i : nat)
  (apis : list string) :
  well_terminated instructions ->
  i < List.length instructions ->
  exists st, get_apis_body instructions i apis = Ok st.
Proof.
  intros Hwt Hlt. unfold get_apis_body, getitem.
  destruct (nth_error instructions i) as [[[[c0 l0] n0] f0]|] eqn:E0;
    [|apply nth_error_None in E0; lia].
  cbn [bind].
  destruct (String.eqb n0 "GETGLOBAL" && is_loader f0) eqn:B0; [|eauto].
  apply andb_true_iff in B0. destruct B0 as [B0 _]. apply String.eqb_eq in B0.
  destruct (nth_error_next instructions i n0 Hwt) as [[[[c1 l1] n1] f1] E1];
    [unfold opcode_at; rewrite E0; reflexivity | auto |].
  rewrite E1. cbn [bind].
  destruct (String.eqb n1 "GETTABLE" && is_loadAPI f1) eqn:B1; [|eauto].
  apply andb_true_iff in B1. destruct B1 as [B1 _]. apply String.eqb_eq in B1.
  destruct (nth_error_next instructions (i + 1) n1 Hwt) as [[[[c2 l2] n2] f2] E2];
    [unfold opcode_at; rewrite E1; reflexivity | auto |].
  replace (i + 1 + 1) with (i + 2) in E2 by lia.
  rewrite E2. cbn [bind].
  destruct (String.eqb n2 "LOADK") eqn:B2; [|eauto].
  apply String.eqb_eq in B2.
  destruct (nth_error_next instructions (i + 2) n2 Hwt) as [[[[c3 l3] n3] f3] E3];
    [unfold opcode_at; rewrite E2; reflexivity | auto |].
  replace (i + 2 + 1) with (i + 3) in E3 by lia.
  rewrite E3. cbn [bind].
  destruct (String.eqb n3 "CALL"); [|eauto].
  destruct f2 as [text|].
  - destruct (re_match api_regex text) as [m|]; [|eauto].
    destruct (group m "api"); eauto.
  - subst n2. exfalso. exact (proj2 Hwt _ _ _ E2).
Qed.

(** On a well terminated sequence [get_apis] returns. *)
Lemma get_apis_safe (instructions : list instruction) :
  well_terminated instructions ->
  exists apis, get_apis instructions = Ok apis.
Proof.
  intros Hwt. unfold get_apis.
  generalize (@nil string) as apis. generalize 0 as i.
  induction (List.length instructions) as [|fuel IH] at 1; intros i apis; simpl.
  - destruct (Nat.ltb i (List.length instructions)); eauto.
  - destruct (Nat.ltb i (List.length instructions)) eqn:E; [|eauto].
    apply Nat.ltb_lt in E.
    destruct (get_apis_body_safe instructions i apis Hwt E) as [st ->].
    cbn [bind]. apply IH.
Qed.




(* ================================================================== *)
(** ** Instructions before the first chunk header *)

Lemma parse_lines_headerless (chunk : option chunk_kind) :
  forall pre rest,
    Forall (fun l => is_header l = false) pre ->
    parse_lines chunk (pre ++ rest) = parse_lines chunk pre ++ parse_lines chunk rest
    /\ Forall (fun ins => chunk_of ins = chunk) (parse_lines chunk pre).
Proof.
  induction pre as [|line pre IH]; intros rest H; [split; [reflexivity|constructor]|].
  inversion H as [|? ? Hl Hpre]; subst.
  destruct (IH rest Hpre) as [IH1 IH2].
  unfold is_header in Hl. apply orb_false_iff in Hl. destruct Hl as [Hm Hf].
  simpl. rewrite Hm, Hf.
  destruct (re_match instruction_regex (rstrip CR line)) as [m|]; [|auto].
  destruct (group m "line") as [l|]; [|auto].
  destruct (group m "name") as [n|]; [|auto].
  split; [simpl; rewrite IH1; reflexivity | constructor; [reflexivity | exact IH2]].
Qed.

(** A line of the instruction grammar starts with a tab: it is no header. *)
Lemma instruction_line_not_header (line : string) (m : captures) :
  re_match instruction_regex line = Some m ->
  startswith line "main <" = false /\ startswith line "function <" = false.
Proof.
  intros H. destruct line as [|a line]; [discriminate|].
  unfold re_match, instruction_regex in H.
  cbn [cat fold_right rmatch lit] in H.
  destruct (Ascii.eqb TAB a) eqn:E; [|discriminate].
  apply Ascii.eqb_eq in E. subst a. split; reflexivity.
Qed.

(** C4, as the code has it: a line of the instruction grammar met before
    any chunk header is not dropped; it yields a record, and the chunk of
    that record is [None]. *)
Theorem parse_bytecode_before_first_header
  (listing : string) (pre post : list string) (line : string) (m : captures) :
  split NL listing = pre ++ line :: post ->
  Forall (fun l => is_header l = false) pre ->
  re_match instruction_regex (rstrip CR line) = Some m ->
  exists l n,
    group m "line" = Some l /\ group m "name" = Some n /\
    parse_bytecode listing =
      parse_lines None pre ++ (None, int l, n, group m "info") :: parse_lines None post
    /\ Forall (fun ins => chunk_of ins = None) (parse_lines None pre).
Proof.
  intros Hsplit Hpre Hm.
  destruct (re_match_group _ _ _ "line" Hm eq_refl) as [l Hl].
  destruct (re_match_group _ _ _ "name" Hm eq_refl) as [n Hn].
  exists l, n. split; [exact Hl|]. split; [exact Hn|].
  destruct (parse_lines_headerless None pre (line :: post) Hpre) as [Happ Hall].
  split; [|exact Hall].
  unfold parse_bytecode. rewrite Hsplit, Happ. f_equal.
  destruct (instruction_line_not_header _ _ Hm) as [H1 H2].
  cbn [parse_lines]. rewrite H1, H2, Hm, Hl, Hn. reflexivity.
Qed.

Lemma parse_bytecode_before_first_header_witness :
  split NL headerless_listing = [] ++ headerless_listing :: []
  /\ Forall (fun l => is_header l = false) []
  /\ re_match instruction_regex (rstrip CR headerless_listing) =
     Some [("name", "RETURN"); ("line", "1")]
  /\ exists l n,
       group [("name", "RETURN"); ("line", "1")] "line" = Some l /\
       group [("name", "RETURN"); ("line", "1")] "name" = Some n /\
       parse_bytecode headerless_listing =
         parse_lines None [] ++
         (None, int l, n, group [("name", "RETURN"); ("line", "1")] "info")
           :: parse_lines None []
       /\ Forall (fun ins => chunk_of ins = None) (parse_lines None []).
Proof.
  assert (Hs : split NL headerless_listing = [] ++ headerless_listing :: [])
    by (vm_compute; reflexivity).
  assert (Hm : re_match instruction_regex (rstrip CR headerless_listing) =
               Some [("name", "RETURN"); ("line", "1")])
    by (vm_compute; reflexivity).
  split; [exact Hs|]. split; [constructor|]. split; [exact Hm|].
  exact (parse_bytecode_before_first_header headerless_listing [] []
           headerless_listing _ Hs (Forall_nil _) Hm).
Defined.

(** C4 as the specification words it fails: a listing without any header
    line still yields a record. *)
Lemma parse_bytecode_keeps_headerless_line :
  ~ (forall listing,
        Forall (fun l => is_header l = false) (split NL listing) ->
        parse_bytecode listing = []).
Proof.
  intros H. specialize (H headerless_listing).
  assert (Hh : Forall (fun l => is_header l = false) (split NL headerless_listing)).
  { vm_compute split. constructor; [vm_compute; reflexivity | constructor]. }
  specialize (H Hh). vm_compute in H. discriminate.
Qed.

(* ================================================================== *)
(** ** Strings *)

Lemma append_assoc (a b c : string) : (a +++ b) +++ c = a +++ (b +++ c).
Proof. induction a as [|x a IH]; simpl; [reflexivity | now rewrite IH]. Qed.

Lemma append_nil_r (a : string) : a +++ EmptyString = a.
Proof. induction a as [|x a IH]; simpl; [reflexivity | now rewrite IH]. Qed.

Lemma length_append (a b : string) :
  String.length (a +++ b) = String.length a + String.length b.
Proof. induction a as [|x a IH]; simpl; [reflexivity | now rewrite IH]. Qed.

Lemma length_spaces (n : nat) : String.length (spaces n) = n.
Proof. induction n as [|n IH]; simpl; [reflexivity | now rewrite IH]. Qed.

Lemma substring_prefix (a b : string) :
  substring 0 (String.length a) (a +++ b) = a.
Proof.
  induction a as [|x a IH]; simpl.
  - destruct b; reflexivity.
  - now rewrite IH.
Qed.

Lemma consumed_append (u v : string) : consumed (u +++ v) v = u.
Proof.
  unfold consumed. rewrite length_append.
  replace (String.length u + String.length v - String.length v)
    with (String.length u) by lia.
  apply substring_prefix.
Qed.

(* ================================================================== *)
(** ** The format of the messages *)

(** C5, as the code has it: every message is [SEVERITY:LINE: text] and the
    line field is the decimal line number right-aligned in a field as wide
    as the decimal newline count of the source, filled on the left with
    spaces, and never cut when the number is wider. *)
Theorem check_pads_line_with_spaces
  (luac : string -> string * string) (source : string) :
  check luac source =
    (ds <- diagnostics luac source ;;
     Ok (map (render format_d (line_width source)) ds))
  /\ forall line,
       format_d (line_width source) line =
         spaces (line_width source - String.length (str line)) +++ str line
       /\ String.length (format_d (line_width source) line) =
          Nat.max (line_width source) (String.length (str line)).
Proof.
  split.
  - unfold check, diagnostics.
    destruct (get_bytecode_listing luac source) as [[listing errors]|e];
      [|reflexivity].
    cbn [bind]. destruct errors as [|a errors'].
    + unfold bind. destruct (sorted_warnings source listing) as [ws|e]; [|reflexivity].
      cbv beta iota. rewrite warning_messages_map, map_map. simpl. f_equal.
      apply map_ext. intros [[l a] n]. reflexivity.
    + cbv beta iota delta [bind]. rewrite error_messages_map, map_map. reflexivity.
  - intros line. split; [reflexivity|].
    unfold format_d. rewrite length_append, length_spaces. lia.
Qed.

(** C5 as the specification words it, with a zero-filled field, fails: in
    a source of ten newlines the warning at line 3 reads [W: 3: ...], not
    [W:03: ...]. *)
Lemma check_does_not_pad_with_zeros :
  ~ (forall luac source,
        check luac source =
          (ds <- diagnostics luac source ;;
           Ok (map (render format_0d (line_width source)) ds))).
Proof.
  intros H.
  specialize (H (luac_gives ten_line_listing EmptyString) ten_line_source).
  vm_compute in H. discriminate.
Qed.

(* ================================================================== *)
(** ** The order of the warnings *)

Lemma string_leb_trans (a b c : string) :
  String.leb a b = true -> String.leb b c = true -> String.leb a c = true.
Proof.
  unfold String.leb. revert b c.
  induction a as [|x a IH]; intros [|y b] [|z c]; simpl; try easy.
  unfold Ascii.compare.
  destruct (N.compare_spec (N_of_ascii x) (N_of_ascii y)) as [Exy|Lxy|Gxy];
    destruct (N.compare_spec (N_of_ascii y) (N_of_ascii z)) as [Eyz|Lyz|Gyz];
    destruct (N.compare_spec (N_of_ascii x) (N_of_ascii z)) as [Exz|Lxz|Gxz];
    try easy; try (exfalso; lia); try apply IH.
Qed.

Lemma string_compare_refl (a : string) : String.compare a a = Eq.
Proof.
  induction a as [|x a IH]; simpl; [reflexivity|].
  unfold Ascii.compare. now rewrite N.compare_refl.
Qed.

Lemma tuple_le_iff (v w : warning) : tuple_le v w = true <-> warning_le v w.
Proof.
  destruct v as [[l1 a1] n1], w as [[l2 a2] n2].
  unfold tuple_le, tuple_compare, warning_le.
  destruct (N.compare_spec l1 l2) as [E|L|G].
  - subst l2.
    destruct a1, a2; simpl;
      try (destruct n1 as [x|], n2 as [y|]; simpl; unfold String.leb;
           try destruct (String.compare x y));
      (split;
       [ intros H; first [discriminate | right; split; [reflexivity|]; auto]
       | intros [H|[_ [[H1 H2]|[H1 H2]]]];
         try lia; try discriminate; try contradiction; reflexivity ]).
  - split; auto.
  - split; [discriminate|]. intros [H|[H _]]; lia.
Qed.

Lemma warning_le_trans (u v w : warning) :
  warning_le u v -> warning_le v w -> warning_le u w.
Proof.
  destruct u as [[l1 a1] n1], v as [[l2 a2] n2], w as [[l3 a3] n3].
  unfold warning_le.
  intros [H1|[E1 H1]] [H2|[E2 H2]]; try (left; lia). subst l2 l3. right.
  split; [reflexivity|].
  destruct H1 as [[-> ->]|[-> N1]], H2 as [[E2 ->]|[-> N2]]; try discriminate; auto.
  right. split; [reflexivity|].
  destruct n1, n2, n3; simpl in *; try easy. eapply string_leb_trans; eassumption.
Qed.

Lemma warning_le_total (v w : warning) :
  comparable v w = true -> tuple_le v w = false -> warning_le w v.
Proof.
  destruct v as [[l1 a1] n1], w as [[l2 a2] n2].
  unfold comparable, tuple_le, tuple_compare, warning_le.
  destruct (N.compare_spec l1 l2) as [E|L|G]; try discriminate.
  - subst l2. intros Hc Hle. right. split; [reflexivity|].
    destruct a1, a2; simpl in *; try discriminate.
    + right. split; [reflexivity|].
      destruct n1 as [x|], n2 as [y|]; simpl in *; try discriminate.
      unfold String.leb. rewrite String.compare_antisym.
      destruct (String.compare x y); simpl; try discriminate. reflexivity.
    + auto.
    + right. split; [reflexivity|].
      destruct n1 as [x|], n2 as [y|]; simpl in *; try discriminate.
      unfold String.leb. rewrite String.compare_antisym.
      destruct (String.compare x y); simpl; try discriminate. reflexivity.
  - intros _ _. left. lia.
Qed.

Lemma insert_sorted (w : warning) :
  forall l,
    StronglySorted warning_le l ->
    Forall (fun x => comparable w x = true) l ->
    StronglySorted warning_le (insert w l).
Proof.
  induction l as [|x l IH]; intros Hs Hc; simpl.
  - constructor; constructor.
  - inversion Hs as [|? ? Hs' Hx]; subst. inversion Hc as [|? ? Hcx Hc']; subst.
    destruct (tuple_le w x) eqn:E.
    + constructor; [assumption|]. apply tuple_le_iff in E.
      constructor; [assumption|].
      eapply Forall_impl; [|exact Hx]. intros y Hy. eapply warning_le_trans; eassumption.
    + constructor; [apply IH; assumption|].
      eapply Permutation_Forall; [apply insert_perm|].
      constructor; [apply warning_le_total; assumption | assumption].
Qed.

Lemma insertion_sort_sorted :
  forall l,
    (forall v w, In v l -> In w l -> comparable v w = true) ->
    StronglySorted warning_le (insertion_sort l).
Proof.
  induction l as [|w l IH]; intros Hc; simpl; [constructor|].
  apply insert_sorted.
  - apply IH. intros v w' Hv Hw. apply Hc; right; assumption.
  - apply Forall_forall. intros x Hx.
    apply Hc; [left; reflexivity | right].
    eapply Permutation_in; [apply Permutation_sym, insertion_sort_perm | exact Hx].
Qed.

Lemma list_sort_sorted (l ws : list warning) :
  list_sort l = Ok ws -> StronglySorted warning_le ws.
Proof.
  unfold list_sort. destruct (forallb _ l) eqn:E; [|discriminate].
  intros H. inversion H; subst. apply insertion_sort_sorted.
  intros v w Hv Hw. rewrite forallb_forall in E. specialize (E v Hv).
  rewrite forallb_forall in E. exact (E w Hw).
Qed.

Lemma list_sort_named (l : list warning) :
  Forall (fun w => snd w <> None) l -> exists ws, list_sort l = Ok ws.
Proof.
  intros H. unfold list_sort.
  assert (E : forallb (fun v => forallb (comparable v) l) l = true).
  { apply forallb_forall. intros [[l1 a1] n1] Hv. apply forallb_forall.
    intros [[l2 a2] n2] Hw. rewrite Forall_forall in H.
    pose proof (H _ Hv) as H1. pose proof (H _ Hw) as H2. simpl in H1, H2.
    unfold comparable, tuple_compare.
    destruct (l1 ?= l2)%N; try reflexivity.
    destruct (String.compare (action_name a1) (action_name a2)); try reflexivity.
    destruct n1, n2; simpl; congruence. }
  rewrite E. eauto.
Qed.

Lemma warning_le_line (v w : warning) :
  warning_le v w -> (line_of v <= line_of w)%N.
Proof.
  destruct v as [[l1 a1] n1], w as [[l2 a2] n2]. unfold warning_le, line_of. simpl.
  intros [H|[H _]]; lia.
Qed.

(** C2, as the code has it: the warnings [check] prints are those of the
    classification loop, rearranged in ascending order of the whole tuple
    [(line, action, name)]: ascending by line, and at one line ["get"]
    before ["set"] and then by name, whatever the order of the loop.  The
    sort returns whenever every warning carries a name. *)
Theorem warnings_sorted_by_line_action_name
  (luac : string -> string * string) (source listing : string)
  (emitted : list warning) :
  get_bytecode_listing luac source = Ok (listing, EmptyString) ->
  emitted_warnings source listing = Ok emitted ->
  (Forall (fun w => snd w <> None) emitted ->
   exists warnings, sorted_warnings source listing = Ok warnings)
  /\ forall warnings,
       sorted_warnings source listing = Ok warnings ->
       Permutation emitted warnings
       /\ StronglySorted warning_le warnings
       /\ StronglySorted (fun v w => (line_of v <= line_of w)%N) warnings
       /\ check luac source =
          Ok (map (warning_message (line_width source)) warnings).
Proof.
  intros Hluac Hem. split.
  - intros Hnamed. unfold sorted_warnings. rewrite Hem. simpl.
    apply list_sort_named. assumption.
  - intros warnings Hsorted.
    assert (Hsort : list_sort emitted = Ok warnings).
    { unfold sorted_warnings in Hsorted. rewrite Hem in Hsorted. exact Hsorted. }
    pose proof (list_sort_sorted _ _ Hsort) as Hs.
    split; [apply list_sort_perm; assumption|]. split; [assumption|]. split.
    + clear - Hs. induction Hs as [|w ws Hs IH Hall]; constructor; [assumption|].
      eapply Forall_impl; [|exact Hall]. intros x. apply warning_le_line.
    + unfold check. rewrite Hluac. cbn [bind]. rewrite Hsorted. cbn [bind].
      rewrite warning_messages_map. reflexivity.
Qed.

Lemma warnings_sorted_by_line_action_name_witness :
  get_bytecode_listing (luac_gives sample_listing EmptyString) "b = 1 a = 2" =
    Ok (sample_listing, EmptyString)
  /\ emitted_warnings "b = 1 a = 2" sample_listing =
     Ok [(1%N, Set_, Some "b"); (1%N, Set_, Some "a")]
  /\ sorted_warnings "b = 1 a = 2" sample_listing =
     Ok [(1%N, Set_, Some "a"); (1%N, Set_, Some "b")]
  /\ StronglySorted warning_le [(1%N, Set_, Some "a"); (1%N, Set_, Some "b")]
  /\ check (luac_gives sample_listing EmptyString) "b = 1 a = 2" =
     Ok ["W:1: global set of 'a'"; "W:1: global set of 'b'"].
Proof.
  assert (Hem : emitted_warnings "b = 1 a = 2" sample_listing =
                Ok [(1%N, Set_, Some "b"); (1%N, Set_, Some "a")])
    by (vm_compute; reflexivity).
  assert (Hso : sorted_warnings "b = 1 a = 2" sample_listing =
                Ok [(1%N, Set_, Some "a"); (1%N, Set_, Some "b")])
    by (vm_compute; reflexivity).
  pose proof (proj2 (warnings_sorted_by_line_action_name
                       (luac_gives sample_listing EmptyString) "b = 1 a = 2"
                       sample_listing _ eq_refl Hem) _ Hso) as H.
  split; [reflexivity|]. split; [exact Hem|]. split; [exact Hso|].
  split; [exact (proj1 (proj2 H)) | exact (proj2 (proj2 (proj2 H)))].
Defined.

(** C2 as the specification words it fails: two writes on one line come
    out ordered by name, not in the order the loop met them. *)
Lemma warnings_not_stable_by_line :
  ~ (forall source listing emitted warnings,
        emitted_warnings source listing = Ok emitted ->
        sorted_warnings source listing = Ok warnings ->
        warnings = sort_by_line emitted).
Proof.
  intros H.
  specialize (H "b = 1 a = 2" sample_listing
                [(1%N, Set_, Some "b"); (1%N, Set_, Some "a")]
                [(1%N, Set_, Some "a"); (1%N, Set_, Some "b")]).
  assert (H1 : emitted_warnings "b = 1 a = 2" sample_listing =
               Ok [(1%N, Set_, Some "b"); (1%N, Set_, Some "a")])
    by (vm_compute; reflexivity).
  assert (H2 : sorted_warnings "b = 1 a = 2" sample_listing =
               Ok [(1%N, Set_, Some "a"); (1%N, Set_, Some "b")])
    by (vm_compute; reflexivity).
  specialize (H H1 H2). vm_compute in H. discriminate.
Qed.

(* ================================================================== *)
(** ** The module name of a loaded path *)

Lemma all_app (p : cls) (a b : string) : all p (a +++ b) = all p a && all p b.
Proof.
  induction a as [|x a IH]; simpl; [reflexivity|].
  now rewrite IH, andb_assoc.
Qed.

Lemma slash_terminated_has_slash :
  forall s t, s <> EmptyString -> slash_terminated s = true ->
              all not_slash (s +++ t) = false.
Proof.
  induction s as [|a s IH]; intros t Hne Hs; [congruence|].
  simpl in *. destruct s as [|b s'].
  - unfold not_slash. rewrite Hs. reflexivity.
  - rewrite IH; [apply andb_false_r | discriminate | assumption].
Qed.

Lemma max_repeat_one_split (R : Type) (p : cls) (k : cont R) (c : captures) (x : R) :
  forall s, max_repeat_one R p s c k = Some x ->
            exists u v, s = u +++ v /\ all p u = true /\ k v c = Some x.
Proof.
  induction s as [|a s IH]; simpl; intros H.
  - exists EmptyString, EmptyString. auto.
  - destruct (p a) eqn:Pa.
    + destruct (max_repeat_one R p s c k) eqn:E.
      * inversion H; subst. destruct (IH eq_refl) as (u & v & -> & Hu & Hk).
        exists (String a u), v. simpl. rewrite Pa, Hu. auto.
      * exists EmptyString, (String a s). auto.
    + exists EmptyString, (String a s). auto.
Qed.

Lemma max_repeat_one_longest (R : Type) (p : cls) (k : cont R) (c : captures) (x : R) :
  forall u v, all p u = true ->
              max_repeat_one R p v c k = Some x ->
              max_repeat_one R p (u +++ v) c k = Some x.
Proof.
  induction u as [|a u IH]; intros v Hu Hv; simpl in *; [assumption|].
  apply andb_true_iff in Hu. destruct Hu as [Pa Hu].
  rewrite Pa, (IH v Hu Hv). reflexivity.
Qed.

Lemma min_repeat_one_skip (R : Type) (k : cont R) (c : captures) (rest : string) :
  (forall s, all not_slash s = false -> k s c = None) ->
  forall prefix,
    all dot prefix = true -> slash_terminated prefix = true ->
    min_repeat_one R dot (prefix +++ rest) c k = min_repeat_one R dot rest c k.
Proof.
  intros Hk. induction prefix as [|a prefix IH]; intros Hd Hs; [reflexivity|].
  assert (Hno : all not_slash (String a prefix +++ rest) = false)
    by (apply slash_terminated_has_slash; [discriminate | assumption]).
  simpl in Hd. apply andb_true_iff in Hd. destruct Hd as [Da Hd].
  change (String a prefix +++ rest) with (String a (prefix +++ rest)) in *.
  cbn [min_repeat_one]. rewrite (Hk _ Hno), Da.
  apply IH; [assumption|].
  destruct prefix; [reflexivity | exact Hs].
Qed.

Lemma api_tail_no_slash (s : string) (c m : captures) :
  api_tail s c = Some m -> all not_slash s = true.
Proof.
  unfold api_tail. cbn [cat fold_right rmatch Plus].
  destruct s as [|a s]; [discriminate|].
  destruct (not_slash a) eqn:Pa; [|discriminate].
  intros H. apply max_repeat_one_split in H.
  destruct H as (u & v & -> & Hu & Hk).
  simpl. rewrite Pa, all_app, Hu. simpl.
  destruct v as [|q v]; [discriminate|]. cbn [lit] in Hk.
  destruct (Ascii.eqb DQUOTE q) eqn:Eq; [|discriminate].
  apply Ascii.eqb_eq in Eq. subst q.
  destruct v as [|n v]; [reflexivity|].
  destruct v; [|discriminate]. cbn [at_end] in Hk.
  destruct (Ascii.eqb n NL) eqn:En; [|discriminate].
  apply Ascii.eqb_eq in En. subst n. reflexivity.
Qed.

Lemma api_tail_segment (segment : string) (c : captures) :
  segment <> EmptyString -> all not_slash segment = true ->
  api_tail (segment +++ String DQUOTE EmptyString) c = Some (("api", segment) :: c).
Proof.
  intros Hne Hs. destruct segment as [|a seg]; [congruence|].
  simpl in Hs. apply andb_true_iff in Hs. destruct Hs as [Pa Hs].
  unfold api_tail. cbn [cat fold_right rmatch Plus String.append].
  rewrite Pa.
  apply max_repeat_one_longest; [assumption|].
  simpl.
  change (String a (seg +++ String DQUOTE EmptyString))
    with (String a seg +++ String DQUOTE EmptyString).
  rewrite consumed_append. reflexivity.
Qed.

(** The pattern on a quoted path: the group holds what follows the last
    slash. *)
Lemma api_regex_last_segment (prefix segment : string) :
  all dot prefix = true -> slash_terminated prefix = true ->
  segment <> EmptyString -> all not_slash segment = true ->
  re_match api_regex (quoted (prefix +++ segment)) = Some [("api", segment)].
Proof.
  intros Hd Hp Hne Hs.
  unfold re_match, api_regex, quoted.
  cbn [cat fold_right]. cbn [rmatch lit]. rewrite Ascii.eqb_refl.
  rewrite append_assoc.
  change (min_repeat_one captures dot
            (prefix +++ segment +++ String DQUOTE EmptyString) [] api_tail =
          Some [("api", segment)]).
  rewrite min_repeat_one_skip; try assumption.
  - destruct segment as [|a seg]; [congruence|].
    change (String a seg +++ String DQUOTE EmptyString)
      with (String a (seg +++ String DQUOTE EmptyString)).
    cbn [min_repeat_one].
    change (String a (seg +++ String DQUOTE EmptyString))
      with (String a seg +++ String DQUOTE EmptyString).
    rewrite api_tail_segment; [reflexivity | assumption | assumption].
  - intros s Hno. destruct (api_tail s []) eqn:E; [|reflexivity].
    apply api_tail_no_slash in E. congruence.
Qed.

(* ================================================================== *)
(** ** The loader idiom *)

Lemma get_apis_body_idiom (instructions : list instruction) (i : nat)
  (prefix segment : string) (apis : list string) :
  idiom_at instructions i (quoted (prefix +++ segment)) ->
  all dot prefix = true -> slash_terminated prefix = true ->
  segment <> EmptyString -> all not_slash segment = true ->
  get_apis_body instructions i apis = Ok (i + 3 + 1, apis ++ [segment]).
Proof.
  intros (c0 & l0 & loader & c1 & l1 & c2 & l2 & c3 & l3 & info3 &
          E0 & Hl & E1 & E2 & E3) Hd Hp Hne Hs.
  unfold get_apis_body, getitem. rewrite E0. cbn [bind].
  assert (L : is_loader (Some loader) = true) by (destruct Hl; subst; reflexivity).
  rewrite L. change (String.eqb "GETGLOBAL" "GETGLOBAL") with true. cbn [andb].
  rewrite E1. cbn [bind].
  change (String.eqb "GETTABLE" "GETTABLE" && is_loadAPI (Some (quoted "loadAPI")))
    with true. cbv iota.
  rewrite E2. cbn [bind]. change (String.eqb "LOADK" "LOADK") with true. cbv iota.
  rewrite E3. cbn [bind]. change (String.eqb "CALL" "CALL") with true. cbv iota.
  rewrite api_regex_last_segment by assumption. reflexivity.
Qed.

(** A turn of the loop moves on by one, or by four over a whole window. *)
Lemma get_apis_body_inv (instructions : list instruction) (i : nat)
  (apis : list string) (st : nat * list string) :
  get_apis_body instructions i apis = Ok st ->
  st = (i + 1, apis)
  \/ (fst st = i + 3 + 1
      /\ (exists api, snd st = apis ++ [api])
      /\ opcode_at instructions (i + 1) = Some "GETTABLE"
      /\ opcode_at instructions (i + 2) = Some "LOADK"
      /\ opcode_at instructions (i + 3) = Some "CALL").
Proof.
  unfold get_apis_body, getitem, opcode_at.
  destruct (nth_error instructions i) as [[[[c0 l0] n0] f0]|]; [|discriminate].
  cbn [bind].
  destruct (String.eqb n0 "GETGLOBAL" && is_loader f0);
    [|intros H; inversion H; auto].
  destruct (nth_error instructions (i + 1)) as [[[[c1 l1] n1] f1]|]; [|discriminate].
  cbn [bind].
  destruct (String.eqb n1 "GETTABLE" && is_loadAPI f1) eqn:B1;
    [|intros H; inversion H; auto].
  apply andb_true_iff in B1. destruct B1 as [B1 _]. apply String.eqb_eq in B1.
  destruct (nth_error instructions (i + 2)) as [[[[c2 l2] n2] f2]|]; [|discriminate].
  cbn [bind].
  destruct (String.eqb n2 "LOADK") eqn:B2; [|intros H; inversion H; auto].
  apply String.eqb_eq in B2.
  destruct (nth_error instructions (i + 3)) as [[[[c3 l3] n3] f3]|]; [|discriminate].
  cbn [bind].
  destruct (String.eqb n3 "CALL") eqn:B3; [|intros H; inversion H; auto].
  apply String.eqb_eq in B3.
  destruct f2 as [text|]; [|discriminate].
  destruct (re_match api_regex text) as [m|]; [|intros H; inversion H; auto].
  destruct (group m "api") as [api|]; [|intros H; inversion H; auto].
  intros H. inversion H; subst. right. simpl. eauto 10.
Qed.

Lemma get_apis_loop_keeps (instructions : list instruction) (x : string) :
  forall fuel i apis result,
    get_apis_loop fuel instructions i apis = Ok result ->
    In x apis -> In x result.
Proof.
  induction fuel as [|fuel IH]; intros i apis result H Hin; simpl in H;
    destruct (Nat.ltb i (List.length instructions));
    try (inversion H; subst; assumption).
  destruct (get_apis_body instructions i apis) as [st|e] eqn:B; [|discriminate].
  cbn [bind] in H. apply IH in H; [assumption|].
  apply get_apis_body_inv in B.
  destruct B as [->|(_ & (api & ->) & _)]; [assumption | apply in_or_app; auto].
Qed.

(** The loop does not step over the start of a window: the three
    instructions it steps over are not [GETGLOBAL]. *)
Lemma get_apis_loop_reaches (instructions : list instruction) (i : nat)
  (segment : string) :
  opcode_at instructions i = Some "GETGLOBAL" ->
  (forall apis, get_apis_body instructions i apis = Ok (i + 3 + 1, apis ++ [segment])) ->
  forall fuel i0 apis result,
    i0 <= i -> List.length instructions - i0 <= fuel ->
    get_apis_loop fuel instructions i0 apis = Ok result ->
    In segment result.
Proof.
  intros Hop Hbody.
  assert (Hlt : i < List.length instructions).
  { apply nth_error_Some. unfold opcode_at in Hop.
    destruct (nth_error instructions i); [discriminate | discriminate]. }
  induction fuel as [|fuel IH]; intros i0 apis result Hle Hfuel H; [lia|].
  simpl in H.
  destruct (Nat.ltb i0 (List.length instructions)) eqn:E;
    [|apply Nat.ltb_ge in E; lia].
  destruct (get_apis_body instructions i0 apis) as [st|e] eqn:B; [|discriminate].
  cbn [bind] in H.
  destruct (Nat.eq_dec i0 i) as [->|Hne].
  - rewrite Hbody in B. inversion B; subst. simpl in H.
    eapply get_apis_loop_keeps; [exact H|]. apply in_or_app. right. left. reflexivity.
  - pose proof (get_apis_body_advances _ _ _ _ B) as Hadv.
    apply get_apis_body_inv in B.
    destruct B as [->|(Hst & _ & O1 & O2 & O3)].
    + simpl in *. apply (IH (i0 + 1) apis result); [lia | lia | exact H].
    + apply (IH (fst st) (snd st) result); [|lia|exact H].
      rewrite Hst.
      destruct (Nat.eq_dec i (i0 + 1)) as [->|];
        [rewrite O1 in Hop; discriminate|].
      destruct (Nat.eq_dec i (i0 + 2)) as [->|];
        [rewrite O2 in Hop; discriminate|].
      destruct (Nat.eq_dec i (i0 + 3)) as [->|];
        [rewrite O3 in Hop; discriminate|].
      lia.
Qed.

(** C7, as the code has it: where the four instructions of the loader
    idiom stand and the constant loaded is a quoted path, the name the
    detector appends is what follows the last slash of the path ([prefix]
    is empty or ends with a slash, [segment] has none), and the detector's
    result holds it.  The name is then a declared global and is treated as
    a builtin is: a read of it is skipped without
    [lint-check-globals-cached] or in the main chunk; with
    [lint-check-globals-cached] a read of it outside the main chunk yields
    a warning unless [ignore_global_get] holds the name; and a read of a
    name that is neither declared nor in [ignore_global_get] yields a
    warning. *)
Theorem loaded_module_is_declared
  (instructions : list instruction) (i : nat) (prefix segment : string) :
  idiom_at instructions i (quoted (prefix +++ segment)) ->
  all dot prefix = true -> slash_terminated prefix = true ->
  segment <> EmptyString -> all not_slash segment = true ->
  (forall apis,
      get_apis_body instructions i apis = Ok (i + 3 + 1, apis ++ [segment]))
  /\ forall apis,
       get_apis instructions = Ok apis ->
       In segment apis
       /\ forall source refs line chunk,
            let cfg := effective_config source refs apis in
            (cache_globals cfg = false \/ chunk = Some Main ->
             skipped cfg (Get, line, Some segment, chunk) = true)
            /\ (forall other,
                   ~ In other (lua51_builtins ++ cc_builtins ++ apis) ->
                   mem (Some other) (ignore_global_get cfg) = false ->
                   skipped cfg (Get, line, Some other, chunk) = false)
            /\ (cache_globals cfg = true -> chunk <> Some Main ->
                mem (Some segment) (ignore_global_get cfg) = false ->
                skipped cfg (Get, line, Some segment, chunk) = false).
Proof.
  intros Hidiom Hd Hp Hne Hs.
  assert (Hbody : forall apis,
             get_apis_body instructions i apis = Ok (i + 3 + 1, apis ++ [segment]))
    by (intros; apply (get_apis_body_idiom instructions i prefix segment);
        assumption).
  split; [exact Hbody|].
  intros apis Hapis.
  assert (Hin : In segment apis).
  { destruct Hidiom as (c0 & l0 & loader & ? & ? & ? & ? & ? & ? & ? & E0 & _).
    eapply (get_apis_loop_reaches instructions i segment);
      [unfold opcode_at; rewrite E0; reflexivity | exact Hbody | | | exact Hapis]; lia. }
  split; [exact Hin|].
  intros source refs line chunk cfg.
  assert (Hdecl : mem (Some segment) (map Some (declared_globals cfg)) = true).
  { apply mem_In, in_map. unfold cfg. rewrite effective_config_declared.
    apply in_or_app. right. apply in_or_app. right. assumption. }
  split; [|split].
  - intros Hmode. unfold skipped.
    destruct (mem (Some segment) (ignore_global_get cfg)); [reflexivity|].
    rewrite Hdecl. destruct Hmode as [-> | ->]; [reflexivity|].
    destruct (cache_globals cfg); reflexivity.
  - intros other Hother Hig. unfold skipped. rewrite Hig.
    destruct (mem (Some other) (map Some (declared_globals cfg))) eqn:E; [|reflexivity].
    apply mem_In, in_map_iff in E. destruct E as (x & Hx & Hxin).
    inversion Hx; subst x. unfold cfg in Hxin.
    rewrite effective_config_declared in Hxin. contradiction.
  - intros Hcache Hchunk Hig. unfold skipped. rewrite Hig, Hdecl, Hcache.
    destruct chunk as [[|]|]; [contradiction Hchunk; reflexivity | | ]; reflexivity.
Qed.

Lemma loaded_module_is_declared_witness :
  idiom_at (parse_bytecode loader_listing) 0 (quoted ("rom/apis/" +++ "foo"))
  /\ all dot "rom/apis/" = true
  /\ slash_terminated "rom/apis/" = true
  /\ "foo" <> EmptyString
  /\ all not_slash "foo" = true
  /\ get_apis (parse_bytecode loader_listing) = Ok ["foo"]
  /\ In "foo" ["foo"]
  /\ skipped (effective_config loader_source [] ["foo"])
       (Get, 2%N, Some "foo", Some Main) = true
  /\ skipped (effective_config loader_source [] ["foo"])
       (Get, 3%N, Some "bar2", Some Main) = false
  /\ skipped (effective_config cached_loader_source [] ["foo"])
       (Get, 3%N, Some "foo", Some Function) = false
  /\ check (luac_gives loader_listing EmptyString) loader_source =
     Ok ["W:3: global get of 'bar2'"].
Proof.
  assert (Hidiom : idiom_at (parse_bytecode loader_listing) 0
                     (quoted ("rom/apis/" +++ "foo"))).
  { exists (Some Main), 1%N, "os", (Some Main), 1%N, (Some Main), 1%N,
      (Some Main), 1%N, None.
    repeat split; try (vm_compute; reflexivity). left. reflexivity. }
  assert (Hapis : get_apis (parse_bytecode loader_listing) = Ok ["foo"])
    by (vm_compute; reflexivity).
  assert (Hne : "foo" <> EmptyString) by discriminate.
  pose proof (proj2 (loaded_module_is_declared (parse_bytecode loader_listing) 0
                       "rom/apis/" "foo" Hidiom eq_refl eq_refl Hne eq_refl)
                _ Hapis) as [Hin Hcls].
  destruct (Hcls loader_source [] 2%N (Some Main)) as [Hfoo _].
  destruct (Hcls loader_source [] 3%N (Some Main)) as [_ [Hbar _]].
  destruct (Hcls cached_loader_source [] 3%N (Some Function)) as [_ [_ Hcached]].
  split; [exact Hidiom|]. split; [reflexivity|]. split; [reflexivity|].
  split; [exact Hne|]. split; [reflexivity|]. split; [exact Hapis|].
  split; [exact Hin|]. split; [apply Hfoo; right; reflexivity|].
  split; [|split; [|vm_compute; reflexivity]].
  - apply Hbar; [|vm_compute; reflexivity].
    vm_compute. intuition discriminate.
  - apply Hcached; [vm_compute; reflexivity | discriminate | vm_compute; reflexivity].
Defined.

(** C7 as the specification words it fails: with
    [lint-check-globals-cached] in the source, the read of the loaded
    module [foo] inside a function is not skipped, and [check] prints a
    warning for it. *)
Lemma loaded_module_read_in_function_warns :
  get_apis (parse_bytecode cached_loader_listing) = Ok ["foo"]
  /\ check (luac_gives cached_loader_listing EmptyString) cached_loader_source =
     Ok ["W:3: global get of 'foo'"]
  /\ ~ (forall source refs apis line chunk name,
          In name apis ->
          skipped (effective_config source refs apis)
            (Get, line, Some name, chunk) = true).
Proof.
  split; [vm_compute; reflexivity|]. split; [vm_compute; reflexivity|].
  intros H.
  specialize (H cached_loader_source [] ["foo"] 3%N (Some Function) "foo"
                (or_introl eq_refl)).
  vm_compute in H. discriminate H.
Qed.

(** The fall-back branches of the model for a group left unbound are never
    taken: the groups the program reads are bound by every match. *)
Lemma api_regex_binds_api (text : string) (m : captures) :
  re_match api_regex text = Some m -> exists api, group m "api" = Some api.
Proof. intros H. exact (re_match_group _ _ _ "api" H eq_refl). Qed.

Lemma instruction_regex_binds (line : string) (m : captures) :
  re_match instruction_regex line = Some m ->
  (exists l, group m "line" = Some l) /\ (exists n, group m "name" = Some n).
Proof.
  intros H. split.
  - exact (re_match_group _ _ _ "line" H eq_refl).
  - exact (re_match_group _ _ _ "name" H eq_refl).
Qed.

(* ================================================================== *)
(** ** The rest of the program: the reference extractor *)

(** X1: [get_global_refs] yields the references of the [GETGLOBAL] and
    [SETGLOBAL] instructions and of no other: a reference is in the result
    exactly when an instruction with its chunk, line and annotation and
    the matching opcode is in the sequence; and the result of two
    sequences put end to end is the two results put end to end, so the
    listing order is kept. *)
Theorem get_global_refs_exact (instructions more : list instruction) :
  (forall a line name chunk,
      In (a, line, name, chunk) (get_global_refs instructions) <->
      exists op,
        In (chunk, line, op, name) instructions /\
        ((a = Get /\ op = "GETGLOBAL") \/ (a = Set_ /\ op = "SETGLOBAL")))
  /\ get_global_refs (instructions ++ more) =
     get_global_refs instructions ++ get_global_refs more.
Proof.
  split.
  - intros a line name chunk.
    induction instructions as [|[[[c l] op] info] instructions IH]; simpl.
    + split; [intros [] | intros (op & [] & _)].
    + destruct (String.eqb op "GETGLOBAL") eqn:Eg;
        [|destruct (String.eqb op "SETGLOBAL") eqn:Es].
      * apply String.eqb_eq in Eg. subst op. simpl. rewrite IH. split.
        -- intros [E|(op & Hin & Hop)].
           ++ inversion E; subst. exists "GETGLOBAL". auto.
           ++ exists op. auto.
        -- intros (op & [E|Hin] & Hop).
           ++ inversion E; subst.
              destruct Hop as [[-> _]|[_ Hop]]; [auto | discriminate].
           ++ right. exists op. auto.
      * apply String.eqb_eq in Es. subst op. simpl. rewrite IH. split.
        -- intros [E|(op & Hin & Hop)].
           ++ inversion E; subst. exists "SETGLOBAL". auto.
           ++ exists op. auto.
        -- intros (op & [E|Hin] & Hop).
           ++ inversion E; subst.
              destruct Hop as [[_ Hop]|[-> _]]; [discriminate | auto].
           ++ right. exists op. auto.
      * rewrite IH. split.
        -- intros (op' & Hin & Hop). exists op'. auto.
        -- intros (op' & [E|Hin] & Hop).
           ++ inversion E; subst.
              destruct Hop as [[_ ->]|[_ ->]];
                [rewrite String.eqb_refl in Eg | rewrite String.eqb_refl in Es];
                discriminate.
           ++ exists op'. auto.
  - induction instructions as [|[[[c l] op] info] instructions IH]; simpl;
      [reflexivity|].
    destruct (String.eqb op "GETGLOBAL");
      [|destruct (String.eqb op "SETGLOBAL")]; rewrite IH; reflexivity.
Qed.

(* ================================================================== *)
(** ** The rest of the program: the listing parser *)

Lemma parse_lines_app :
  forall pre chunk rest,
    parse_lines chunk (pre ++ rest) =
    parse_lines chunk pre ++ parse_lines (chunk_after chunk pre) rest.
Proof.
  induction pre as [|line pre IH]; intros chunk rest; [reflexivity|].
  simpl.
  destruct (startswith (rstrip CR line) "main <"); [apply IH|].
  destruct (startswith (rstrip CR line) "function <"); [apply IH|].
  destruct (re_match instruction_regex (rstrip CR line)) as [m|]; [|apply IH].
  destruct (group m "line") as [l|]; [|apply IH].
  destruct (group m "name") as [n|]; [|apply IH].
  simpl. rewrite IH. reflexivity.
Qed.

(** X2: a chunk header yields no record and decides the chunk of the
    records that follow it: after a [main <] line, whatever came before,
    the records of the lines up to the next header all carry [Main], and
    after a [function <] line they all carry [Function]. *)
Theorem parse_lines_after_header
  (chunk : option chunk_kind) (pre mid rest : list string) (header : string)
  (kind : chunk_kind) :
  match kind with
  | Main => startswith (rstrip CR header) "main <" = true
  | Function =>
      startswith (rstrip CR header) "main <" = false /\
      startswith (rstrip CR header) "function <" = true
  end ->
  Forall (fun l => is_header l = false) mid ->
  parse_lines chunk (pre ++ header :: mid ++ rest) =
    parse_lines chunk pre ++ parse_lines (Some kind) mid
      ++ parse_lines (Some kind) rest
  /\ Forall (fun ins => chunk_of ins = Some kind) (parse_lines (Some kind) mid).
Proof.
  intros Hh Hmid.
  destruct (parse_lines_headerless (Some kind) mid rest Hmid) as [Happ Hall].
  split; [|exact Hall].
  rewrite parse_lines_app. f_equal. cbn [parse_lines].
  destruct kind.
  - rewrite Hh. exact Happ.
  - destruct Hh as [H1 H2]. rewrite H1, H2. exact Happ.
Qed.

Lemma parse_lines_after_header_witness :
  startswith (rstrip CR "main <stdin:0,0>") "main <" = true
  /\ Forall (fun l => is_header l = false) [ins_line "5" "1" "RETURN   " "0 1"]
  /\ parse_lines (Some Function)
       (["function <stdin:1,1>"] ++ "main <stdin:0,0>"
          :: [ins_line "5" "1" "RETURN   " "0 1"] ++ []) =
     [(Some Main, 1%N, "RETURN", None)].
Proof.
  assert (Hmid : Forall (fun l => is_header l = false)
                   [ins_line "5" "1" "RETURN   " "0 1"])
    by (constructor; [vm_compute; reflexivity | constructor]).
  split; [reflexivity|]. split; [exact Hmid|].
  exact (proj1 (parse_lines_after_header (Some Function) ["function <stdin:1,1>"]
                  [ins_line "5" "1" "RETURN   " "0 1"] [] "main <stdin:0,0>" Main
                  eq_refl Hmid)).
Defined.

Lemma rstrip_trailing_cr (l : string) :
  rstrip CR (l +++ String CR EmptyString) = rstrip CR l.
Proof.
  induction l as [|a l IH]; [reflexivity|].
  change (String a l +++ String CR EmptyString)
    with (String a (l +++ String CR EmptyString)).
  cbn [rstrip]. rewrite IH. reflexivity.
Qed.

Lemma parse_lines_rstrip (chunk : option chunk_kind) :
  forall xs ys,
    Forall2 (fun x y => rstrip CR x = rstrip CR y) xs ys ->
    parse_lines chunk xs = parse_lines chunk ys.
Proof.
  intros xs ys H. revert chunk.
  induction H as [|x y xs ys Hxy H IH]; intros chunk; [reflexivity|].
  cbn [parse_lines]. rewrite Hxy, !IH. reflexivity.
Qed.

Lemma split_concat_crlf :
  forall ls, ls <> [] ->
             Forall (fun l => all dot l = true) ls ->
             Forall2 (fun x y => rstrip CR x = rstrip CR y)
                     (split NL (String.concat CRLF ls)) ls.
Proof.
  induction ls as [|l ls IH]; intros Hne H; [congruence|].
  inversion H as [|? ? Hl Hls]; subst.
  destruct ls as [|l' ls].
  - simpl. rewrite split_no_sep by exact Hl. constructor; [reflexivity|constructor].
  - change (String.concat CRLF (l :: l' :: ls))
      with (l +++ CRLF +++ String.concat CRLF (l' :: ls)).
    unfold CRLF at 1.
    change (String CR (String NL EmptyString) +++ ?x)
      with (String CR EmptyString +++ String NL x).
    rewrite <- append_assoc.
    rewrite split_at_sep.
    + constructor; [apply rstrip_trailing_cr | apply IH; [discriminate | exact Hls]].
    + change (fun a => negb (Ascii.eqb a NL)) with dot.
      rewrite all_app, Hl. reflexivity.
Qed.

(** X3: carriage returns at the ends of the lines do not matter: a
    listing whose lines end with CR LF yields the records of the same
    lines ended with LF alone. *)
Theorem parse_bytecode_crlf (ls : list string) :
  ls <> [] ->
  Forall (fun l => all dot l = true) ls ->
  parse_bytecode (String.concat CRLF ls) = parse_bytecode (String.concat LF ls).
Proof.
  intros Hne H. unfold parse_bytecode.
  rewrite (split_concat_lf ls Hne H).
  apply parse_lines_rstrip, split_concat_crlf; assumption.
Qed.

Lemma parse_bytecode_crlf_witness :
  ["main <stdin:0,0>"; ins_line_info "1" "7" "GETGLOBAL" "0 -1" "x"] <> []
  /\ Forall (fun l => all dot l = true)
       ["main <stdin:0,0>"; ins_line_info "1" "7" "GETGLOBAL" "0 -1" "x"]
  /\ parse_bytecode
       (String.concat CRLF
          ["main <stdin:0,0>"; ins_line_info "1" "7" "GETGLOBAL" "0 -1" "x"]) =
     [(Some Main, 7%N, "GETGLOBAL", Some "x")].
Proof.
  assert (H : Forall (fun l => all dot l = true)
                ["main <stdin:0,0>"; ins_line_info "1" "7" "GETGLOBAL" "0 -1" "x"])
    by (repeat constructor).
  split; [discriminate|]. split; [exact H|].
  exact (parse_bytecode_crlf
           ["main <stdin:0,0>"; ins_line_info "1" "7" "GETGLOBAL" "0 -1" "x"]
           ltac:(discriminate) H).
Defined.

(* ================================================================== *)
(** ** Steps of the matcher on a text of known shape *)

Lemma lit_app (l s : string) : lit l (l +++ s) = Some s.
Proof.
  induction l as [|a l IH]; [reflexivity|].
  simpl. rewrite Ascii.eqb_refl. exact IH.
Qed.

Section Steps.
Variable R : Type.
Variables (c : captures) (k : cont R) (x : R).

Lemma step_cat (r1 r2 : regex) (s : string) :
  rmatch R r1 s c (fun s' c' => rmatch R r2 s' c' k) = Some x ->
  rmatch R (Cat r1 r2) s c k = Some x.
Proof. intros H. exact H. Qed.

Lemma step_lit (l s : string) :
  k s c = Some x -> rmatch R (Lit l) (l +++ s) c k = Some x.
Proof. intros H. cbn [rmatch]. rewrite lit_app. exact H. Qed.

Lemma step_star (p : cls) (u v : string) :
  all p u = true -> stops p v -> k v c = Some x ->
  rmatch R (MaxRepeatOne p) (u +++ v) c k = Some x.
Proof.
  intros Hu Hv Hk. cbn [rmatch]. apply max_repeat_one_longest; [exact Hu|].
  destruct v as [|a v]; [exact Hk|]. simpl in Hv. simpl. rewrite Hv. exact Hk.
Qed.

Lemma step_plus (p : cls) (u v : string) :
  u <> EmptyString -> all p u = true -> stops p v -> k v c = Some x ->
  rmatch R (Plus p) (u +++ v) c k = Some x.
Proof.
  intros Hne Hu Hv Hk. destruct u as [|a u]; [congruence|].
  simpl in Hu. apply andb_true_iff in Hu. destruct Hu as [Pa Hu].
  unfold Plus. cbn [rmatch String.append]. rewrite Pa.
  apply (step_star p u v Hu Hv Hk).
Qed.

Lemma step_group (g : string) (r : regex) (s : string) :
  rmatch R r s c (fun s' c' => k s' ((g, consumed s s') :: c')) = Some x ->
  rmatch R (Group g r) s c k = Some x.
Proof. intros H. exact H. Qed.

End Steps.

Lemma stops_app (p : cls) (u v : string) :
  u <> EmptyString -> stops p u -> stops p (u +++ v).
Proof. destruct u; [congruence | intros _ H; exact H]. Qed.

Lemma all_impl (p q : cls) (s : string) :
  (forall a, p a = true -> q a = true) -> all p s = true -> all q s = true.
Proof.
  intros Hpq. induction s as [|a s IH]; [reflexivity|]. simpl.
  intros H. apply andb_true_iff in H. destruct H as [Ha Hs].
  rewrite (Hpq a Ha), (IH Hs). reflexivity.
Qed.

Lemma rstrip_absent (ch : ascii) :
  forall s, all (fun a => negb (Ascii.eqb a ch)) s = true -> rstrip ch s = s.
Proof.
  induction s as [|a s IH]; intros H; [reflexivity|].
  simpl in H. apply andb_true_iff in H. destruct H as [Ha Hs].
  cbn [rstrip]. rewrite (IH Hs). apply negb_true_iff in Ha. rewrite Ha.
  destruct s; reflexivity.
Qed.

Lemma stops_class (p q : cls) (u v : string) :
  u <> EmptyString -> all q u = true ->
  (forall a, q a = true -> p a = false) -> stops p (u +++ v).
Proof.
  intros Hne Hu Hqp. destruct u as [|a u]; [congruence|].
  simpl in Hu. apply andb_true_iff in Hu. destruct Hu as [Ha _].
  simpl. auto.
Qed.

Lemma blank_not_upper (a : ascii) : blank a = true -> upper a = false.
Proof.
  unfold blank. intros H. apply orb_true_iff in H.
  destruct H as [H|H]; apply Ascii.eqb_eq in H; subst a; reflexivity.
Qed.

Lemma max_repeat_one_all (R : Type) (p : cls) (k : cont R) (c : captures) (x : R) :
  forall u, all p u = true -> k EmptyString c = Some x ->
            max_repeat_one R p u c k = Some x.
Proof.
  intros u Hu Hk. rewrite <- (append_nil_r u).
  apply max_repeat_one_longest; [exact Hu | exact Hk].
Qed.

Lemma consumed_all (s : string) : consumed s EmptyString = s.
Proof.
  rewrite <- (append_nil_r s) at 1. apply consumed_append.
Qed.

Lemma instruction_regex_printed
  (pc line op pad operands : string) (info : option string) :
  pc <> EmptyString -> all digit pc = true ->
  line <> EmptyString -> all digit line = true ->
  op <> EmptyString -> all upper op = true ->
  pad <> EmptyString -> all blank pad = true ->
  operands <> EmptyString -> all operand operands = true -> stops blank operands ->
  match info with Some text => all dot text = true | None => True end ->
  re_match instruction_regex (listing_line pc line op pad operands info) =
  Some (match info with
        | Some text => [("info", text); ("name", op); ("line", line)]
        | None => [("name", op); ("line", line)]
        end).
Proof.
  intros Hpc Dpc Hline Dline Hop Uop Hpad Bpad Hops Oops Sops Hinfo.
  unfold re_match, instruction_regex, listing_line. cbn [cat fold_right].
  apply step_cat, step_lit.
  apply step_cat, step_plus; [exact Hpc | exact Dpc | reflexivity |].
  apply step_cat, step_lit.
  apply step_cat, step_group, step_plus; [exact Hline | exact Dline | reflexivity |].
  rewrite consumed_append.
  apply step_cat, step_lit.
  apply step_cat, step_group, step_plus;
    [exact Hop | exact Uop
     | apply (stops_class upper blank); [exact Hpad | exact Bpad | exact blank_not_upper] |].
  rewrite consumed_append.
  apply step_cat, step_plus;
    [exact Hpad | exact Bpad | apply stops_app; [exact Hops | exact Sops] |].
  apply step_cat, step_star;
    [exact Oops | destruct info; [reflexivity | exact I] |].
  apply step_cat. cbn [rmatch].
  destruct info as [text|].
  - rewrite lit_app.
    rewrite (max_repeat_one_all _ dot _ _
               (("info", text) :: [("name", op); ("line", line)]) text Hinfo).
    + reflexivity.
    + cbn [at_end]. rewrite consumed_all. reflexivity.
  - reflexivity.
Qed.

Lemma class_excludes (p : cls) (ch : ascii) :
  p ch = false -> forall a, p a = true -> negb (Ascii.eqb a ch) = true.
Proof.
  intros Hch a Ha. destruct (Ascii.eqb a ch) eqn:E; [|reflexivity].
  apply Ascii.eqb_eq in E. subst a. congruence.
Qed.

Lemma plain_dot (a : ascii) : plain a = true -> dot a = true.
Proof. unfold plain, dot. intros H. apply andb_true_iff in H. tauto. Qed.

Lemma plain_not_cr (a : ascii) : plain a = true -> not_cr a = true.
Proof. unfold plain, not_cr. intros H. apply andb_true_iff in H. tauto. Qed.

Lemma rstrip_keeps (ch : ascii) (u v : string) :
  v <> EmptyString /\ rstrip ch v = v ->
  u +++ v <> EmptyString /\ rstrip ch (u +++ v) = u +++ v.
Proof.
  intros [Hne Hv]. induction u as [|a u [IHne IH]]; [split; assumption|].
  split; [discriminate|].
  change (String a u +++ v) with (String a (u +++ v)).
  cbn [rstrip]. rewrite IH.
  destruct (u +++ v); [congruence | reflexivity].
Qed.

(** X4: the parser reads an instruction line back as the compiler printed
    it: for a line made of an index, a source line number, an opcode in
    capitals, its padding, operands that start with a digit or a minus
    sign and, or not, a comment, the record holds the chunk at hand, the
    number, the opcode and the comment ([None] without comment). *)
Theorem parse_lines_printed_line
  (chunk : option chunk_kind) (pc line op pad operands : string)
  (info : option string) (rest : list string) :
  pc <> EmptyString -> all digit pc = true ->
  line <> EmptyString -> all digit line = true ->
  op <> EmptyString -> all upper op = true ->
  pad <> EmptyString -> all blank pad = true ->
  operands <> EmptyString -> all operand operands = true -> stops blank operands ->
  match info with Some text => all plain text = true | None => True end ->
  parse_lines chunk (listing_line pc line op pad operands info :: rest) =
  (chunk, int line, op, info) :: parse_lines chunk rest.
Proof.
  intros Hpc Dpc Hline Dline Hop Uop Hpad Bpad Hops Oops Sops Hinfo.
  assert (Hdot : match info with Some text => all dot text = true | None => True end).
  { destruct info as [text|]; [|exact I]. exact (all_impl _ _ _ plain_dot Hinfo). }
  pose proof (instruction_regex_printed pc line op pad operands info
                Hpc Dpc Hline Dline Hop Uop Hpad Bpad Hops Oops Sops Hdot) as Hm.
  assert (Hstrip : rstrip CR (listing_line pc line op pad operands info) =
                   listing_line pc line op pad operands info).
  { unfold listing_line. do 7 apply rstrip_keeps. split.
    - destruct operands; [congruence | discriminate].
    - apply rstrip_absent. change (fun a => negb (Ascii.eqb a CR)) with not_cr.
      rewrite all_app.
      rewrite (all_impl operand not_cr operands (class_excludes operand CR eq_refl) Oops).
      destruct info as [text|]; [|reflexivity].
      rewrite all_app, (all_impl _ _ _ plain_not_cr Hinfo). reflexivity. }
  cbn [parse_lines]. rewrite Hstrip, Hm.
  assert (H1 : startswith (listing_line pc line op pad operands info) "main <" = false)
    by reflexivity.
  assert (H2 : startswith (listing_line pc line op pad operands info) "function <" = false)
    by reflexivity.
  rewrite H1, H2. destruct info; reflexivity.
Qed.

Lemma parse_lines_printed_line_witness :
  "3" <> EmptyString /\ all digit "3" = true
  /\ "12" <> EmptyString /\ all digit "12" = true
  /\ "LOADK" <> EmptyString /\ all upper "LOADK" = true
  /\ "    " +++ String TAB EmptyString <> EmptyString
  /\ all blank ("    " +++ String TAB EmptyString) = true
  /\ "1 -3" <> EmptyString /\ all operand "1 -3" = true /\ stops blank "1 -3"
  /\ all plain (quoted "rom/apis/foo") = true
  /\ parse_lines (Some Function)
       [listing_line "3" "12" "LOADK" ("    " +++ String TAB EmptyString) "1 -3"
          (Some (quoted "rom/apis/foo"))] =
     [(Some Function, 12%N, "LOADK", Some (quoted "rom/apis/foo"))].
Proof.
  repeat (split; [first [discriminate | reflexivity]|]).
  exact (parse_lines_printed_line (Some Function) "3" "12" "LOADK"
           ("    " +++ String TAB EmptyString) "1 -3"
           (Some (quoted "rom/apis/foo")) []
           ltac:(discriminate) eq_refl ltac:(discriminate) eq_refl
           ltac:(discriminate) eq_refl ltac:(discriminate) eq_refl
           ltac:(discriminate) eq_refl eq_refl eq_refl).
Defined.

(* ================================================================== *)
(** ** The rest of the program: error lines *)

Section LazySteps.
Variable R : Type.
Variables (c : captures) (k : cont R) (x : R).

Lemma step_min_star (p q : cls) (u v : string) :
  all p u = true -> all q u = true ->
  (forall a s, q a = true -> k (String a s) c = None) ->
  k v c = Some x ->
  rmatch R (MinRepeatOne p) (u +++ v) c k = Some x.
Proof.
  intros Hp Hq Hfail Hk. cbn [rmatch].
  induction u as [|a u IH].
  - simpl. destruct v; simpl; rewrite Hk; reflexivity.
  - simpl in Hp, Hq. apply andb_true_iff in Hp, Hq.
    destruct Hp as [Pa Hp], Hq as [Qa Hq].
    change (String a u +++ v) with (String a (u +++ v)).
    cbn [min_repeat_one]. rewrite (Hfail a _ Qa), Pa. exact (IH Hp Hq).
Qed.

Lemma step_min_plus (p q : cls) (u v : string) :
  u <> EmptyString -> all p u = true -> all q u = true ->
  (forall a s, q a = true -> k (String a s) c = None) ->
  k v c = Some x ->
  rmatch R (MinPlus p) (u +++ v) c k = Some x.
Proof.
  intros Hne Hp Hq Hfail Hk. destruct u as [|a u]; [congruence|].
  simpl in Hp, Hq. apply andb_true_iff in Hp, Hq.
  destruct Hp as [Pa Hp], Hq as [Qa Hq].
  unfold MinPlus. cbn [rmatch String.append]. rewrite Pa.
  exact (step_min_star p q u v Hp Hq Hfail Hk).
Qed.

End LazySteps.

Lemma step_plus_end (R : Type) (c : captures) (k : cont R) (x : R)
  (p : cls) (u : string) :
  u <> EmptyString -> all p u = true -> k EmptyString c = Some x ->
  rmatch R (Plus p) u c k = Some x.
Proof.
  intros Hne Hu Hk. rewrite <- (append_nil_r u).
  apply step_plus; [exact Hne | exact Hu | exact I | exact Hk].
Qed.

Lemma lit_colon_fails (R : Type) (r : regex) (k : cont R) (c : captures)
  (a : ascii) (s : string) :
  not_colon a = true -> rmatch R (Cat (Lit ":") r) (String a s) c k = None.
Proof.
  intros H. cbn [rmatch lit]. unfold not_colon in H.
  apply negb_true_iff in H. rewrite Ascii.eqb_sym, H. reflexivity.
Qed.

Lemma error_regex_printed (program file digits message : string) :
  program <> EmptyString -> all dot program = true -> all not_colon program = true ->
  file <> EmptyString -> all dot file = true -> all not_colon file = true ->
  digits <> EmptyString -> all digit digits = true ->
  message <> EmptyString -> all dot message = true ->
  re_match error_regex (error_line program file digits message) =
  Some [("message", message); ("line", digits)].
Proof.
  intros Hp Dp Cp Hf Df Cf Hd Dd Hm Dm.
  unfold re_match, error_regex, error_line. cbn [cat fold_right].
  apply step_cat, (step_min_plus _ _ _ _ dot not_colon);
    [exact Hp | exact Dp | exact Cp | intros a s Ha; apply lit_colon_fails; exact Ha |].
  apply step_cat, step_lit.
  apply step_cat, (step_min_plus _ _ _ _ dot not_colon);
    [exact Hf | exact Df | exact Cf | intros a s Ha; apply lit_colon_fails; exact Ha |].
  apply step_cat, step_lit.
  apply step_cat, step_group, step_plus; [exact Hd | exact Dd | reflexivity |].
  rewrite consumed_append.
  apply step_cat, step_lit.
  apply step_cat, step_group.
  apply step_plus_end; [exact Hm | exact Dm |].
  rewrite consumed_all. reflexivity.
Qed.

Lemma isascii_app (a b : string) : isascii (a +++ b) = isascii a && isascii b.
Proof.
  induction a as [|x a IH]; simpl; [reflexivity|].
  now rewrite IH, andb_assoc.
Qed.

Lemma digits_isascii :
  forall d, all digit d = true -> isascii d = true.
Proof.
  induction d as [|x d IH]; intros H; [reflexivity|].
  simpl in H. apply andb_true_iff in H. destruct H as [Hx Hd].
  simpl. rewrite (IH Hd), andb_true_r.
  unfold digit, between in Hx. apply andb_true_iff in Hx. destruct Hx as [_ Hx].
  apply N.leb_le in Hx. apply N.ltb_lt. lia.
Qed.

(** X5: an error line of the form [program:file:LINE: message] (program
    and file without colon, a message without carriage return), the rest
    of the output being ASCII, is read back as printed when the message is
    ASCII: [check] answers with the single message [E:LINE: message], the
    number being the decimal value of LINE.  When the message holds a byte
    above 127, the decode raises [UnicodeDecodeError] instead. *)
Theorem check_reports_error_line
  (luac : string -> string * string) (source stdout : string)
  (program file digits message : string) :
  luac source = (stdout, error_line program file digits message +++ LF) ->
  isascii stdout = true -> isascii program = true -> isascii file = true ->
  program <> EmptyString -> all dot program = true -> all not_colon program = true ->
  file <> EmptyString -> all dot file = true -> all not_colon file = true ->
  digits <> EmptyString -> all digit digits = true ->
  message <> EmptyString -> all plain message = true ->
  check luac source =
  if isascii message
  then Ok [error_message (line_width source) (int digits, message)]
  else Raise UnicodeDecodeError.
Proof.
  intros Hluac Aout Ap Af Hp Dp Cp Hf Df Cf Hd Dd Hm Pm.
  pose proof (all_impl _ _ _ plain_dot Pm) as Dm.
  assert (Aerr : isascii (error_line program file digits message +++ LF) =
                 isascii message).
  { unfold error_line. rewrite !isascii_app, Ap, Af, (digits_isascii _ Dd).
    simpl. rewrite andb_true_r. reflexivity. }
  destruct (isascii message) eqn:Am.
  - rewrite (check_error_path luac source stdout _
               (get_bytecode_listing_ok _ _ _ _ Hluac Aout Aerr)).
    + f_equal.
      assert (Hline : all dot (error_line program file digits message) = true).
      { unfold error_line. rewrite !all_app, Dp, Df, Dm.
        rewrite (all_impl digit dot digits (class_excludes digit NL eq_refl) Dd).
        reflexivity. }
      unfold LF. change (fun a => negb (Ascii.eqb a NL)) with dot in *.
      rewrite (split_at_sep NL _ EmptyString Hline).
      cbn [split parsed_errors].
      assert (Hstrip : rstrip CR (error_line program file digits message) =
                       error_line program file digits message).
      { unfold error_line. do 6 apply rstrip_keeps. split; [exact Hm|].
        apply rstrip_absent. exact (all_impl _ _ _ plain_not_cr Pm). }
      unfold error_of_line at 1. rewrite Hstrip.
      rewrite (error_regex_printed program file digits message
                 Hp Dp Cp Hf Df Cf Hd Dd Hm Dm).
      reflexivity.
    + unfold error_line. destruct program; [congruence | discriminate].
  - apply (check_not_ascii luac source stdout _ Hluac).
    rewrite Aerr, Aout. reflexivity.
Qed.

Lemma check_reports_error_line_witness :
  luac_gives EmptyString
    (error_line "luac" " stdin" "12" "'=' expected near 'x'" +++ LF) "x y" =
    (EmptyString, error_line "luac" " stdin" "12" "'=' expected near 'x'" +++ LF)
  /\ isascii EmptyString = true /\ isascii "luac" = true /\ isascii " stdin" = true
  /\ "luac" <> EmptyString /\ all dot "luac" = true /\ all not_colon "luac" = true
  /\ " stdin" <> EmptyString /\ all dot " stdin" = true
  /\ all not_colon " stdin" = true
  /\ "12" <> EmptyString /\ all digit "12" = true
  /\ "'=' expected near 'x'" <> EmptyString
  /\ all plain "'=' expected near 'x'" = true
  /\ check (luac_gives EmptyString
              (error_line "luac" " stdin" "12" "'=' expected near 'x'" +++ LF))
       "x y" = Ok ["E:12: '=' expected near 'x'"].
Proof.
  repeat (split; [first [discriminate | reflexivity]|]).
  exact (check_reports_error_line
           (luac_gives EmptyString
              (error_line "luac" " stdin" "12" "'=' expected near 'x'" +++ LF))
           "x y" EmptyString "luac" " stdin" "12" "'=' expected near 'x'"
           eq_refl eq_refl eq_refl eq_refl
           ltac:(discriminate) eq_refl eq_refl
           ltac:(discriminate) eq_refl eq_refl
           ltac:(discriminate) eq_refl ltac:(discriminate) eq_refl).
Defined.

(* ================================================================== *)
(** ** The rest of the program: the module names of the detector *)

(** What the pattern of [get_apis] binds: a non-empty text without
    slash. *)
Lemma api_tail_binds (s : string) (c m : captures) :
  api_tail s c = Some m ->
  exists u, u <> EmptyString /\ all not_slash u = true /\ m = ("api", u) :: c.
Proof.
  unfold api_tail. cbn [cat fold_right rmatch Plus].
  destruct s as [|a s]; [discriminate|].
  destruct (not_slash a) eqn:Pa; [|discriminate].
  intros H. apply max_repeat_one_split in H.
  destruct H as (u & v & -> & Hu & Hk).
  exists (String a u). split; [discriminate|]. split; [simpl; rewrite Pa; exact Hu|].
  cbn [lit] in Hk. destruct v as [|q v]; [discriminate|].
  destruct (Ascii.eqb DQUOTE q); [|discriminate].
  cbn [lit] in Hk. destruct (at_end v); [|discriminate].
  change (String a (u +++ String q v)) with (String a u +++ String q v) in Hk.
  rewrite consumed_append in Hk. inversion Hk. reflexivity.
Qed.

Lemma api_regex_binds_segment (text : string) (m : captures) :
  re_match api_regex text = Some m ->
  exists api, api <> EmptyString /\ all not_slash api = true /\ m = [("api", api)].
Proof.
  unfold re_match, api_regex. cbn [cat fold_right]. cbn [rmatch].
  destruct (lit (String DQUOTE EmptyString) text) as [rest|]; [|discriminate].
  intros H.
  change (min_repeat_one captures dot rest [] api_tail = Some m) in H.
  apply min_repeat_one_inv in H. destruct H as (s' & H).
  exact (api_tail_binds _ _ _ H).
Qed.

(** A turn of the loop keeps the list or adds one such name to it, and
    a turn that adds a name has read its whole window inside the
    sequence. *)
Lemma get_apis_body_step (instructions : list instruction) (i : nat)
  (apis : list string) (st : nat * list string) :
  get_apis_body instructions i apis = Ok st ->
  st = (i + 1, apis)
  \/ exists api,
       st = (i + 3 + 1, apis ++ [api])
       /\ api <> EmptyString /\ all not_slash api = true
       /\ i + 3 < List.length instructions.
Proof.
  unfold get_apis_body, getitem.
  destruct (nth_error instructions i) as [[[[c0 l0] n0] f0]|]; [|discriminate].
  cbn [bind].
  destruct (String.eqb n0 "GETGLOBAL" && is_loader f0);
    [|intros H; inversion H; auto].
  destruct (nth_error instructions (i + 1)) as [[[[c1 l1] n1] f1]|]; [|discriminate].
  cbn [bind].
  destruct (String.eqb n1 "GETTABLE" && is_loadAPI f1);
    [|intros H; inversion H; auto].
  destruct (nth_error instructions (i + 2)) as [[[[c2 l2] n2] f2]|]; [|discriminate].
  cbn [bind].
  destruct (String.eqb n2 "LOADK"); [|intros H; inversion H; auto].
  destruct (nth_error instructions (i + 3)) as [[[[c3 l3] n3] f3]|] eqn:E3;
    [|discriminate].
  cbn [bind].
  destruct (String.eqb n3 "CALL"); [|intros H; inversion H; auto].
  destruct f2 as [text|]; [|discriminate].
  destruct (re_match api_regex text) as [m|] eqn:Em; [|intros H; inversion H; auto].
  destruct (api_regex_binds_segment _ _ Em) as (api & Hne & Hs & ->).
  cbn [group]. change (String.eqb "api" "api") with true. cbv iota.
  intros H. inversion H; subst. right. exists api.
  repeat split; try assumption.
  apply nth_error_Some. rewrite E3. discriminate.
Qed.

(** What holds of the index and the list before a turn and is kept by
    every turn holds when the loop ends. *)
Lemma get_apis_loop_invariant (instructions : list instruction)
  (P : nat -> list string -> Prop) :
  (forall i apis st,
      i < List.length instructions -> P i apis ->
      get_apis_body instructions i apis = Ok st -> P (fst st) (snd st)) ->
  forall fuel i apis result,
    P i apis ->
    get_apis_loop fuel instructions i apis = Ok result ->
    exists i', P i' result.
Proof.
  intros Hstep. induction fuel as [|fuel IH]; intros i apis result HP H; simpl in H.
  - destruct (Nat.ltb i (List.length instructions)); inversion H; subst; eauto.
  - destruct (Nat.ltb i (List.length instructions)) eqn:E;
      [|inversion H; subst; eauto].
    apply Nat.ltb_lt in E.
    destruct (get_apis_body instructions i apis) as [st|e] eqn:B; [|discriminate].
    cbn [bind] in H. exact (IH _ _ _ (Hstep i apis st E HP B) H).
Qed.

(** X6: every module name [get_apis] returns is non-empty and holds no
    slash, and each name takes a window of four instructions of its own:
    four times the number of names is at most the number of
    instructions. *)
Theorem get_apis_names (instructions : list instruction) (apis : list string) :
  get_apis instructions = Ok apis ->
  Forall (fun api => api <> EmptyString /\ all not_slash api = true) apis
  /\ 4 * List.length apis <= List.length instructions.
Proof.
  intros H. unfold get_apis in H.
  destruct (get_apis_loop_invariant instructions
              (fun i apis =>
                 Forall (fun api => api <> EmptyString /\ all not_slash api = true) apis
                 /\ 4 * List.length apis <= i
                 /\ i <= List.length instructions))
    with (fuel := List.length instructions) (i := 0) (apis := @nil string)
         (result := apis) as (i' & HF & Hlen & Hi).
  - intros i acc st Hlt (HF & Hlen & Hi) B.
    apply get_apis_body_step in B.
    destruct B as [->|(api & -> & Hne & Hs & Hwin)]; simpl.
    + repeat split; [exact HF | lia | lia].
    + repeat split; [|rewrite length_app; simpl; lia | lia].
      apply Forall_app. split; [exact HF|]. constructor; [auto | constructor].
  - repeat split; [constructor | simpl; lia | lia].
  - exact H.
  - split; [exact HF | lia].
Qed.

Lemma get_apis_names_witness :
  get_apis (parse_bytecode loader_listing) = Ok ["foo"]
  /\ Forall (fun api => api <> EmptyString /\ all not_slash api = true) ["foo"]
  /\ 4 * List.length ["foo"] <= List.length (parse_bytecode loader_listing).
Proof.
  assert (H : get_apis (parse_bytecode loader_listing) = Ok ["foo"])
    by (vm_compute; reflexivity).
  split; [exact H|].
  exact (get_apis_names (parse_bytecode loader_listing) ["foo"] H).
Defined.

(* ================================================================== *)
(** ** The rest of the program: the detector on two sequences *)

Lemma nth_error_app_some {A : Type} (a b : list A) (j : nat) (v : A) :
  nth_error a j = Some v -> nth_error (a ++ b) j = Some v.
Proof.
  intros H. rewrite nth_error_app1; [exact H|].
  apply nth_error_Some. rewrite H. discriminate.
Qed.

(** A turn that succeeds inside [a] is the same turn in [a ++ b]. *)
Lemma get_apis_body_prefix (a b : list instruction) (i : nat)
  (apis : list string) (st : nat * list string) :
  get_apis_body a i apis = Ok st -> get_apis_body (a ++ b) i apis = Ok st.
Proof.
  unfold get_apis_body, getitem.
  destruct (nth_error a i) as [[[[c0 l0] n0] f0]|] eqn:E0; [|discriminate].
  rewrite (nth_error_app_some a b _ _ E0). cbn [bind].
  destruct (String.eqb n0 "GETGLOBAL" && is_loader f0); [|auto].
  destruct (nth_error a (i + 1)) as [[[[c1 l1] n1] f1]|] eqn:E1; [|discriminate].
  rewrite (nth_error_app_some a b _ _ E1). cbn [bind].
  destruct (String.eqb n1 "GETTABLE" && is_loadAPI f1); [|auto].
  destruct (nth_error a (i + 2)) as [[[[c2 l2] n2] f2]|] eqn:E2; [|discriminate].
  rewrite (nth_error_app_some a b _ _ E2). cbn [bind].
  destruct (String.eqb n2 "LOADK"); [|auto].
  destruct (nth_error a (i + 3)) as [[[[c3 l3] n3] f3]|] eqn:E3; [|discriminate].
  rewrite (nth_error_app_some a b _ _ E3). cbn [bind]. auto.
Qed.

Lemma nth_error_app_shift {A : Type} (a b : list A) (j d : nat) :
  nth_error (a ++ b) (List.length a + j + d) = nth_error b (j + d).
Proof.
  rewrite nth_error_app2 by lia. f_equal. lia.
Qed.

(** A turn past the end of [a] is the turn of [b], the index moved. *)
Lemma get_apis_body_shift (a b : list instruction) (j : nat) (apis : list string) :
  get_apis_body (a ++ b) (List.length a + j) apis =
  (st <- get_apis_body b j apis ;; Ok (List.length a + fst st, snd st)).
Proof.
  unfold get_apis_body, getitem.
  rewrite !nth_error_app_shift.
  replace (nth_error (a ++ b) (List.length a + j)) with (nth_error b j)
    by (rewrite nth_error_app2 by lia; f_equal; lia).
  destruct (nth_error b j) as [[[[c0 l0] n0] f0]|]; [|reflexivity]. cbn [bind].
  destruct (String.eqb n0 "GETGLOBAL" && is_loader f0);
    [|cbn [fst snd]; rewrite <- ?Nat.add_assoc; reflexivity].
  destruct (nth_error b (j + 1)) as [[[[c1 l1] n1] f1]|]; [|reflexivity]. cbn [bind].
  destruct (String.eqb n1 "GETTABLE" && is_loadAPI f1);
    [|cbn [fst snd]; rewrite <- ?Nat.add_assoc; reflexivity].
  destruct (nth_error b (j + 2)) as [[[[c2 l2] n2] f2]|]; [|reflexivity]. cbn [bind].
  destruct (String.eqb n2 "LOADK"); [|cbn [fst snd]; rewrite <- ?Nat.add_assoc; reflexivity].
  destruct (nth_error b (j + 3)) as [[[[c3 l3] n3] f3]|]; [|reflexivity]. cbn [bind].
  destruct (String.eqb n3 "CALL"); [|cbn [fst snd]; rewrite <- ?Nat.add_assoc; reflexivity].
  destruct f2 as [text|]; [|reflexivity].
  destruct (re_match api_regex text) as [m|]; [|cbn [fst snd]; rewrite <- ?Nat.add_assoc; reflexivity].
  destruct (group m "api"); cbn [bind fst snd]; rewrite <- ?Nat.add_assoc; reflexivity.
Qed.

Lemma get_apis_loop_shift (a b : list instruction) :
  forall fuel j apis,
    get_apis_loop fuel (a ++ b) (List.length a + j) apis =
    get_apis_loop fuel b j apis.
Proof.
  induction fuel as [|fuel IH]; intros j apis; simpl.
  - rewrite length_app.
    destruct (Nat.ltb j (List.length b)) eqn:E.
    + apply Nat.ltb_lt in E.
      replace (Nat.ltb (List.length a + j) (List.length a + List.length b)) with true
        by (symmetry; apply Nat.ltb_lt; lia). reflexivity.
    + apply Nat.ltb_ge in E.
      replace (Nat.ltb (List.length a + j) (List.length a + List.length b)) with false
        by (symmetry; apply Nat.ltb_ge; lia). reflexivity.
  - rewrite length_app.
    destruct (Nat.ltb j (List.length b)) eqn:E.
    + apply Nat.ltb_lt in E.
      replace (Nat.ltb (List.length a + j) (List.length a + List.length b)) with true
        by (symmetry; apply Nat.ltb_lt; lia).
      rewrite get_apis_body_shift.
      destruct (get_apis_body b j apis) as [st|e]; [|reflexivity].
      cbn [bind fst snd]. apply IH.
    + apply Nat.ltb_ge in E.
      replace (Nat.ltb (List.length a + j) (List.length a + List.length b)) with false
        by (symmetry; apply Nat.ltb_ge; lia). reflexivity.
Qed.

(** The names found so far only stand in front of those found later. *)
Lemma get_apis_body_acc (b : list instruction) (j : nat) (xs acc : list string) :
  get_apis_body b j (xs ++ acc) =
  (st <- get_apis_body b j acc ;; Ok (fst st, xs ++ snd st)).
Proof.
  unfold get_apis_body, getitem.
  destruct (nth_error b j) as [[[[c0 l0] n0] f0]|]; [|reflexivity]. cbn [bind].
  destruct (String.eqb n0 "GETGLOBAL" && is_loader f0); [|reflexivity].
  destruct (nth_error b (j + 1)) as [[[[c1 l1] n1] f1]|]; [|reflexivity]. cbn [bind].
  destruct (String.eqb n1 "GETTABLE" && is_loadAPI f1); [|reflexivity].
  destruct (nth_error b (j + 2)) as [[[[c2 l2] n2] f2]|]; [|reflexivity]. cbn [bind].
  destruct (String.eqb n2 "LOADK"); [|reflexivity].
  destruct (nth_error b (j + 3)) as [[[[c3 l3] n3] f3]|]; [|reflexivity]. cbn [bind].
  destruct (String.eqb n3 "CALL"); [|reflexivity].
  destruct f2 as [text|]; [|reflexivity].
  destruct (re_match api_regex text) as [m|]; [|reflexivity].
  destruct (group m "api"); cbn [bind fst snd]; [|reflexivity].
  rewrite app_assoc. reflexivity.
Qed.

Lemma get_apis_loop_acc (b : list instruction) (xs : list string) :
  forall fuel j acc,
    get_apis_loop fuel b j (xs ++ acc) =
    (r <- get_apis_loop fuel b j acc ;; Ok (xs ++ r)).
Proof.
  induction fuel as [|fuel IH]; intros j acc; simpl;
    destruct (Nat.ltb j (List.length b)); try reflexivity.
  rewrite get_apis_body_acc.
  destruct (get_apis_body b j acc) as [st|e]; [|reflexivity].
  cbn [bind fst snd]. apply IH.
Qed.

Lemma get_apis_loop_prefix (a b : list instruction) :
  forall fuel i apis xs,
    get_apis_loop fuel a i apis = Ok xs ->
    List.length a - i <= fuel -> i <= List.length a ->
    forall fuel2,
      List.length (a ++ b) - i <= fuel2 ->
      get_apis_loop fuel2 (a ++ b) i apis =
      get_apis_loop (List.length b) (a ++ b) (List.length a) xs.
Proof.
  induction fuel as [|fuel IH]; intros i apis xs H Hfuel Hi fuel2 Hfuel2.
  - assert (i = List.length a) by lia. subst i.
    simpl in H. rewrite Nat.ltb_irrefl in H. inversion H; subst.
    apply get_apis_loop_fuel; rewrite length_app in *; lia.
  - simpl in H. destruct (Nat.ltb i (List.length a)) eqn:E.
    + apply Nat.ltb_lt in E.
      destruct (get_apis_body a i apis) as [st|e] eqn:B; [|discriminate].
      cbn [bind] in H.
      pose proof (get_apis_body_prefix a b _ _ _ B) as B'.
      pose proof (get_apis_body_step _ _ _ _ B) as Hst.
      rewrite length_app in Hfuel2.
      destruct fuel2 as [|fuel2]; [lia|].
      simpl. rewrite length_app.
      replace (Nat.ltb i (List.length a + List.length b)) with true
        by (symmetry; apply Nat.ltb_lt; lia).
      rewrite B'. cbn [bind].
      apply (IH _ _ _ H).
      * destruct Hst as [->|(api & -> & _ & _ & Hw)]; simpl; lia.
      * destruct Hst as [->|(api & -> & _ & _ & Hw)]; simpl; lia.
      * rewrite length_app.
        destruct Hst as [->|(api & -> & _ & _ & Hw)]; simpl; lia.
    + apply Nat.ltb_ge in E. assert (i = List.length a) by lia. subst i.
      inversion H; subst.
      apply get_apis_loop_fuel; rewrite length_app in *; lia.
Qed.

(** X7: the detector works on two sequences put end to end as on each
    alone, when it succeeds on the first: no window reaches from the first
    into the second, and the names come in order, those of the first
    sequence before those of the second, a name met twice standing
    twice. *)
Theorem get_apis_app (a b : list instruction) (xs : list string) :
  get_apis a = Ok xs ->
  get_apis (a ++ b) = (ys <- get_apis b ;; Ok (xs ++ ys)).
Proof.
  intros H. unfold get_apis in *.
  rewrite (get_apis_loop_prefix a b _ 0 [] xs H) by lia.
  rewrite <- (Nat.add_0_r (List.length a)) at 1.
  rewrite get_apis_loop_shift.
  rewrite <- (app_nil_r xs) at 1.
  apply get_apis_loop_acc.
Qed.

Lemma get_apis_app_witness :
  get_apis (parse_bytecode loader_listing) = Ok ["foo"]
  /\ get_apis (parse_bytecode loader_listing ++ parse_bytecode loader_listing) =
     Ok ["foo"; "foo"].
Proof.
  assert (H : get_apis (parse_bytecode loader_listing) = Ok ["foo"])
    by (vm_compute; reflexivity).
  split; [exact H|].
  rewrite (get_apis_app _ (parse_bytecode loader_listing) _ H), H. reflexivity.
Defined.

(* ================================================================== *)
(** ** The rest of the program: directives and classification *)

(** The ignore lists of the classification loop: the names of the
    markers and, under [lint-set-globals-in-main-chunk], the names written
    in the main chunk. *)
Lemma effective_config_ignore (source : string) (refs : list global_ref)
  (apis : list string) :
  ignore_global_get (effective_config source refs apis) =
    map Some (directive_get_names source) ++
    (if contains "lint-set-globals-in-main-chunk" source
     then main_set_names refs else [])
  /\ ignore_global_set (effective_config source refs apis) =
     map Some (directive_set_names source) ++
     (if contains "lint-set-globals-in-main-chunk" source
      then main_set_names refs else []).
Proof.
  unfold effective_config, get_directives, directive_get_names, directive_set_names.
  cbv beta iota zeta.
  destruct (contains "lint-set-globals-in-main-chunk" source).
  - rewrite main_chunk_sets_appends. split; reflexivity.
  - simpl. rewrite !app_nil_r. split; reflexivity.
Qed.

Lemma in_collect_warnings_iff (cfg : config) (refs : list global_ref) (w : warning) :
  In w (collect_warnings cfg refs []) <->
  exists ref, In ref refs /\ skipped cfg ref = false /\ w = warning_of ref.
Proof.
  split; [apply in_collect_warnings|].
  intros (ref & Hin & Hs & ->). rewrite collect_warnings_filter.
  apply in_map, filter_In. split; [exact Hin|]. rewrite Hs. reflexivity.
Qed.

(** X8: a write is reported whatever the registry of declared names, the
    chunk and the cached-globals flag: every [SETGLOBAL] of a name other
    than [_] that is in no ignore list yields its warning, also for a
    builtin name, and the warning is among those [check] sorts and
    prints. *)
Theorem writes_are_reported
  (source listing : string) (apis : list string) (line : N) (name : string)
  (chunk : option chunk_kind) :
  let global_refs := get_global_refs (parse_bytecode listing) in
  get_apis (parse_bytecode listing) = Ok apis ->
  In (Set_, line, Some name, chunk) global_refs ->
  name <> "_" ->
  ~ In (Some name) (ignore_global_set (effective_config source global_refs apis)) ->
  exists emitted,
    emitted_warnings source listing = Ok emitted
    /\ In (line, Set_, Some name) emitted
    /\ forall warnings,
         sorted_warnings source listing = Ok warnings ->
         In (line, Set_, Some name) warnings.
Proof.
  intros global_refs Hapis Hin Hname Hign.
  assert (Hem : emitted_warnings source listing =
                Ok (collect_warnings (effective_config source global_refs apis)
                      global_refs [])).
  { unfold emitted_warnings. rewrite Hapis. reflexivity. }
  assert (Hw : In (line, Set_, Some name)
                  (collect_warnings (effective_config source global_refs apis)
                     global_refs [])).
  { apply in_collect_warnings_iff. exists (Set_, line, Some name, chunk).
    split; [exact Hin|]. split; [|reflexivity].
    unfold skipped, mem at 1. cbn [existsb].
    destruct (String.eqb name "_") eqn:E;
      [apply String.eqb_eq in E; congruence|].
    cbn [orb].
    destruct (mem (Some name) (ignore_global_set _)) eqn:M; [|reflexivity].
    apply mem_In in M. contradiction. }
  eexists. split; [exact Hem|]. split; [exact Hw|].
  intros warnings Hsorted. unfold sorted_warnings in Hsorted.
  rewrite Hem in Hsorted. cbn [bind] in Hsorted.
  eapply Permutation_in; [apply list_sort_perm; exact Hsorted | exact Hw].
Qed.

Lemma writes_are_reported_witness :
  get_apis (parse_bytecode print_listing) = Ok []
  /\ In (Set_, 1%N, Some "print", Some Main)
       (get_global_refs (parse_bytecode print_listing))
  /\ "print" <> "_"
  /\ ~ In (Some "print")
       (ignore_global_set
          (effective_config "print = nil"
             (get_global_refs (parse_bytecode print_listing)) []))
  /\ sorted_warnings "print = nil" print_listing = Ok [(1%N, Set_, Some "print")]
  /\ In (1%N, Set_, Some "print") [(1%N, Set_, Some "print")].
Proof.
  assert (Hapis : get_apis (parse_bytecode print_listing) = Ok [])
    by (vm_compute; reflexivity).
  assert (Hin : In (Set_, 1%N, Some "print", Some Main)
                   (get_global_refs (parse_bytecode print_listing)))
    by (vm_compute; tauto).
  assert (Hname : "print" <> "_") by discriminate.
  assert (Hign : ~ In (Some "print")
                   (ignore_global_set
                      (effective_config "print = nil"
                         (get_global_refs (parse_bytecode print_listing)) [])))
    by (vm_compute; tauto).
  assert (Hsorted : sorted_warnings "print = nil" print_listing =
                    Ok [(1%N, Set_, Some "print")])
    by (vm_compute; reflexivity).
  destruct (writes_are_reported "print = nil" print_listing [] 1%N "print"
              (Some Main) Hapis Hin Hname Hign) as (emitted & _ & _ & Hall).
  repeat (split; [assumption|]).
  exact (Hall _ Hsorted).
Defined.

(** X9: the three list markers do what their names say.  A name listed
    under [lint-ignore-global:] has no warning at all; one listed under
    [lint-ignore-global-get:] has no warning for a read; one listed under
    [lint-ignore-global-set:] has none for a write - in the classification
    loop, for any references, and so among the warnings [check] prints. *)
Theorem directives_suppress
  (source : string) (refs : list global_ref) (apis : list string) (name : string) :
  let cfg := effective_config source refs apis in
  (In name (directive_names ignore_global_regex source) ->
   forall refs' l a, ~ In (l, a, Some name) (collect_warnings cfg refs' []))
  /\ (In name (directive_names ignore_global_get_regex source) ->
      forall refs' l, ~ In (l, Get, Some name) (collect_warnings cfg refs' []))
  /\ (In name (directive_names ignore_global_set_regex source) ->
      forall refs' l, ~ In (l, Set_, Some name) (collect_warnings cfg refs' [])).
Proof.
  intros cfg.
  destruct (effective_config_ignore source refs apis) as [Hg Hs].
  fold cfg in Hg, Hs.
  assert (Get_skipped : In (Some name) (ignore_global_get cfg) ->
            forall refs' l, ~ In (l, Get, Some name) (collect_warnings cfg refs' [])).
  { intros Hin refs' l Hw. apply in_collect_warnings in Hw.
    destruct Hw as ([[[a' l'] n'] ch'] & _ & Hskip & Hw). inversion Hw; subst.
    unfold skipped in Hskip. apply mem_In in Hin. rewrite Hin in Hskip.
    discriminate. }
  assert (Set_skipped : In (Some name) (ignore_global_set cfg) ->
            forall refs' l, ~ In (l, Set_, Some name) (collect_warnings cfg refs' [])).
  { intros Hin refs' l Hw. apply in_collect_warnings in Hw.
    destruct Hw as ([[[a' l'] n'] ch'] & _ & Hskip & Hw). inversion Hw; subst.
    unfold skipped in Hskip. apply mem_In in Hin. rewrite Hin in Hskip.
    destruct (mem (Some name) [Some "_"]); discriminate. }
  split; [|split].
  - intros Hin refs' l a.
    destruct a; [apply Get_skipped | apply Set_skipped];
      [rewrite Hg | rewrite Hs]; apply in_or_app; left; apply in_map;
      [unfold directive_get_names | unfold directive_set_names];
      apply in_or_app; left; exact Hin.
  - intros Hin. apply Get_skipped. rewrite Hg. apply in_or_app. left.
    apply in_map. unfold directive_get_names. apply in_or_app. right. exact Hin.
  - intros Hin. apply Set_skipped. rewrite Hs. apply in_or_app. left.
    apply in_map. unfold directive_set_names. apply in_or_app. right. exact Hin.
Qed.

Lemma directives_suppress_witness :
  In "bar" (directive_names ignore_global_regex directive_source)
  /\ In "baz" (directive_names ignore_global_get_regex directive_source)
  /\ In "qux" (directive_names ignore_global_set_regex directive_source)
  /\ ~ In (3%N, Set_, Some "bar")
       (collect_warnings (effective_config directive_source [] [])
          [(Set_, 3%N, Some "bar", Some Main)] [])
  /\ ~ In (3%N, Get, Some "baz")
       (collect_warnings (effective_config directive_source [] [])
          [(Get, 3%N, Some "baz", Some Main)] [])
  /\ ~ In (3%N, Set_, Some "qux")
       (collect_warnings (effective_config directive_source [] [])
          [(Set_, 3%N, Some "qux", Some Main)] []).
Proof.
  assert (H1 : In "bar" (directive_names ignore_global_regex directive_source))
    by (vm_compute; tauto).
  assert (H2 : In "baz" (directive_names ignore_global_get_regex directive_source))
    by (vm_compute; tauto).
  assert (H3 : In "qux" (directive_names ignore_global_set_regex directive_source))
    by (vm_compute; tauto).
  split; [exact H1|]. split; [exact H2|]. split; [exact H3|].
  split; [|split].
  - exact (proj1 (directives_suppress directive_source [] [] "bar") H1 _ _ _).
  - exact (proj1 (proj2 (directives_suppress directive_source [] [] "baz")) H2 _ _).
  - exact (proj2 (proj2 (directives_suppress directive_source [] [] "qux")) H3 _ _).
Defined.

(** *** A source that holds no marker *)

Lemma prefix_nil (s : string) : String.prefix EmptyString s = true.
Proof. destruct s; reflexivity. Qed.

Lemma prefix_app_l (a b : string) :
  forall s, String.prefix (a +++ b) s = true -> String.prefix a s = true.
Proof.
  induction a as [|x a IH]; intros s H; [apply prefix_nil|].
  destruct s as [|y s]; [discriminate|]. simpl in *.
  destruct (ascii_dec x y); [apply IH; exact H | discriminate].
Qed.

Lemma contains_app_l (a b : string) :
  forall s, contains (a +++ b) s = true -> contains a s = true.
Proof.
  induction s as [|y s IH]; intros H; cbn [contains] in *;
    apply orb_true_iff in H; apply orb_true_iff.
  - destruct H as [H|H]; [left; exact (prefix_app_l a b _ H) | discriminate].
  - destruct H as [H|H]; [left; exact (prefix_app_l a b _ H) | right; exact (IH H)].
Qed.

Lemma lit_none_prefix (a : string) :
  forall s, String.prefix a s = false -> lit a s = None.
Proof.
  induction a as [|x a IH]; intros s H; [rewrite prefix_nil in H; discriminate|].
  destruct s as [|y s]; [reflexivity|]. simpl in *.
  destruct (ascii_dec x y) as [->|Hne].
  - rewrite Ascii.eqb_refl. exact (IH _ H).
  - apply Ascii.eqb_neq in Hne. rewrite Hne. reflexivity.
Qed.

Lemma finditer_no_marker (l : string) (r : regex) :
  forall s, contains l s = false -> finditer (Cat (Lit l) r) s = [].
Proof.
  unfold finditer.
  induction s as [|y s IH]; intros H; cbn [contains] in H;
    apply orb_false_iff in H; destruct H as [Hp Hc];
    cbn [finditer_from]; unfold match_here; cbn [rmatch];
    rewrite (lit_none_prefix l _ Hp); [reflexivity | exact (IH Hc)].
Qed.

Lemma contains_absent (a b s : string) :
  contains a s = false -> contains (a +++ b) s = false.
Proof.
  intros H. destruct (contains (a +++ b) s) eqn:E; [|reflexivity].
  apply contains_app_l in E. congruence.
Qed.

(** X10: a source in which [lint-] does not occur carries no directive,
    and then the classification is the plain one: a read is skipped
    exactly when its name is a builtin, a host name or a detected module,
    a write exactly when its name is [_]. *)
Theorem no_marker_no_directive (source : string) :
  contains "lint-" source = false ->
  get_directives source = ([], [], false, false)
  /\ forall refs apis line name chunk,
       let cfg := effective_config source refs apis in
       skipped cfg (Get, line, name, chunk) =
         mem name (map Some (lua51_builtins ++ cc_builtins ++ apis))
       /\ skipped cfg (Set_, line, name, chunk) = mem name [Some "_"].
Proof.
  intros H.
  assert (Hd : get_directives source = ([], [], false, false)).
  { unfold get_directives, directive_names.
    unfold ignore_global_regex, ignore_global_get_regex, ignore_global_set_regex.
    rewrite !finditer_no_marker
      by (apply (contains_absent "lint-" _ source H)).
    change "lint-set-globals-in-main-chunk"
      with ("lint-" +++ "set-globals-in-main-chunk").
    change "lint-check-globals-cached" with ("lint-" +++ "check-globals-cached").
    rewrite !(contains_absent "lint-" _ source H). reflexivity. }
  split; [exact Hd|].
  intros refs apis line name chunk cfg.
  assert (Hcfg : cfg = Config [] [] (lua51_builtins ++ cc_builtins ++ apis) false).
  { unfold cfg, effective_config. rewrite Hd. reflexivity. }
  rewrite Hcfg. unfold skipped.
  cbn [ignore_global_get ignore_global_set declared_globals cache_globals negb].
  change (mem name []) with false. cbv iota.
  split.
  - destruct (mem name (map Some (lua51_builtins ++ cc_builtins ++ apis)));
      reflexivity.
  - destruct (mem name [Some "_"]); reflexivity.
Qed.

Lemma no_marker_no_directive_witness :
  contains "lint-" loader_source = false
  /\ get_directives loader_source = ([], [], false, false)
  /\ skipped (effective_config loader_source [] ["foo"])
       (Get, 2%N, Some "foo", Some Function) = true
  /\ skipped (effective_config loader_source [] ["foo"])
       (Set_, 2%N, Some "foo", Some Function) = false.
Proof.
  assert (H : contains "lint-" loader_source = false) by (vm_compute; reflexivity).
  destruct (no_marker_no_directive loader_source H) as [Hd Hs].
  split; [exact H|]. split; [exact Hd|].
  destruct (Hs [] ["foo"] 2%N (Some "foo") (Some Function)) as [Hg Hw].
  split; [rewrite Hg | rewrite Hw]; vm_compute; reflexivity.
Defined.

(* ================================================================== *)
(** ** The rest of the program: [check] on the output of the compiler *)

(** X11: on a listing as the compiler prints it - ASCII, every chunk
    ended by an instruction that opens no loader window, every [LOADK] and
    every global instruction annotated - [check] raises nothing: it returns
    one warning message for every reference the classification loop does
    not skip, the messages being those warnings sorted by line, action and
    name. *)
Theorem check_returns_on_compiler_output
  (luac : string -> string * string) (source listing : string) :
  let global_refs := get_global_refs (parse_bytecode listing) in
  get_bytecode_listing luac source = Ok (listing, EmptyString) ->
  well_terminated (parse_bytecode listing) ->
  Forall (fun ref => ref_name ref <> None) global_refs ->
  exists apis warnings,
    get_apis (parse_bytecode listing) = Ok apis
    /\ Permutation
         (collect_warnings (effective_config source global_refs apis) global_refs [])
         warnings
    /\ StronglySorted warning_le warnings
    /\ check luac source = Ok (map (warning_message (line_width source)) warnings).
Proof.
  intros global_refs Hluac Hwt Hnamed.
  destruct (get_apis_safe _ Hwt) as [apis Hapis].
  set (cfg := effective_config source global_refs apis).
  assert (Hem : emitted_warnings source listing =
                Ok (collect_warnings cfg global_refs [])).
  { unfold emitted_warnings. rewrite Hapis. reflexivity. }
  assert (Hn : Forall (fun w => snd w <> None) (collect_warnings cfg global_refs [])).
  { apply Forall_forall. intros w Hw. apply in_collect_warnings in Hw.
    destruct Hw as ([[[a l] n] ch] & Hin & _ & ->).
    rewrite Forall_forall in Hnamed. exact (Hnamed _ Hin). }
  destruct (list_sort_named _ Hn) as [warnings Hsort].
  exists apis, warnings. split; [exact Hapis|].
  split; [exact (list_sort_perm _ _ Hsort)|].
  split; [exact (list_sort_sorted _ _ Hsort)|].
  unfold check. rewrite Hluac. cbn [bind]. unfold sorted_warnings. rewrite Hem.
  cbn [bind]. rewrite Hsort. cbn [bind].
  rewrite warning_messages_map. reflexivity.
Qed.

Lemma check_returns_on_compiler_output_witness :
  get_bytecode_listing (luac_gives ten_line_listing EmptyString) ten_line_source =
    Ok (ten_line_listing, EmptyString)
  /\ well_terminated (parse_bytecode ten_line_listing)
  /\ Forall (fun ref => ref_name ref <> None)
       (get_global_refs (parse_bytecode ten_line_listing))
  /\ exists apis warnings,
       get_apis (parse_bytecode ten_line_listing) = Ok apis
       /\ Permutation
            (collect_warnings
               (effective_config ten_line_source
                  (get_global_refs (parse_bytecode ten_line_listing)) apis)
               (get_global_refs (parse_bytecode ten_line_listing)) [])
            warnings
       /\ StronglySorted warning_le warnings
       /\ check (luac_gives ten_line_listing EmptyString) ten_line_source =
          Ok (map (warning_message (line_width ten_line_source)) warnings).
Proof.
  assert (Hg : get_bytecode_listing (luac_gives ten_line_listing EmptyString)
                 ten_line_source = Ok (ten_line_listing, EmptyString))
    by (vm_compute; reflexivity).
  assert (Hp : parse_bytecode ten_line_listing =
               [ (Some Main, 3%N, "GETGLOBAL", Some "bar");
                 (Some Main, 3%N, "CALL", None);
                 (Some Main, 10%N, "RETURN", None) ])
    by (vm_compute; reflexivity).
  assert (Hwt : well_terminated (parse_bytecode ten_line_listing)).
  { rewrite Hp. split.
    - intros i name Hop Hs. simpl in Hs. assert (i = 2) by lia. subst i.
      vm_compute in Hop. inversion Hop; subst. repeat split; discriminate.
    - intros i c l. destruct i as [|[|[|i]]]; simpl; try discriminate.
      destruct i; discriminate. }
  assert (Hn : Forall (fun ref => ref_name ref <> None)
                 (get_global_refs (parse_bytecode ten_line_listing))).
  { rewrite Hp. simpl. constructor; [discriminate | constructor]. }
  split; [exact Hg|]. split; [exact Hwt|]. split; [exact Hn|].
  exact (check_returns_on_compiler_output
           (luac_gives ten_line_listing EmptyString) ten_line_source
           ten_line_listing Hg Hwt Hn).
Defined.

(* ================================================================== *)
(** ** The rest of the program: [find_luac] and [main] *)

(** X12: when [find_luac] answers [True] the global [LUAC] holds a path
    the host reports executable - the program [get_bytecode_listing] then
    runs; and a non-empty [LUAC51] decides alone: the answer is whether
    that path is executable, the script's directory and the search path
    being left aside even when they hold a compiler. *)
Theorem find_luac_true_gives_executable (h : host) :
  (forall luac, find_luac h = (luac, Ok true) ->
                exists path, luac = Some path /\ access_x h path = true)
  /\ (forall a s,
         environ_LUAC51 h = Some (String a s) ->
         find_luac h = (Some (String a s), Ok (access_x h (String a s)))).
Proof.
  split.
  - intros luac H. unfold find_luac in H.
    assert (Hsearch :
              match which_luac h with
              | Some path => (Some path, Ok (access_x h path))
              | None => (None, Raise TypeError)
              end = (luac, Ok true) ->
              exists path, luac = Some path /\ access_x h path = true).
    { destruct (which_luac h) as [path|]; [|discriminate].
      intros E. inversion E; subst. eauto. }
    destruct (environ_LUAC51 h) as [[|a s]|].
    + destruct (String.eqb (os_name h) "nt"); [|auto].
      destruct (access_x h (local_luac h)) eqn:A; [|auto].
      inversion H; subst. eauto.
    + inversion H; subst. eauto.
    + destruct (String.eqb (os_name h) "nt"); [|auto].
      destruct (access_x h (local_luac h)) eqn:A; [|auto].
      inversion H; subst. eauto.
  - intros a s E. unfold find_luac. rewrite E. reflexivity.
Qed.

(** X13: when no compiler is found anywhere - [LUAC51] unset or empty,
    none beside the script on Windows, none on the search path -
    [find_luac] does not answer [False]: it raises [TypeError], and [main]
    ends on that exception without printing its message
    [error: luac5.1 not found] and without the exit code 1. *)
Theorem no_compiler_raises
  (h : host) (run_luac : string -> string -> string * string)
  (stdin : string) (read_file : string -> option string) (argv : list string) :
  environ_LUAC51 h = None \/ environ_LUAC51 h = Some EmptyString ->
  os_name h <> "nt" \/ access_x h (local_luac h) = false ->
  which_luac h = None ->
  find_luac h = (None, Raise TypeError)
  /\ main h run_luac stdin read_file argv = ([], Uncaught (FindRaised TypeError)).
Proof.
  intros Henv Hlocal Hwhich.
  assert (H : find_luac h = (None, Raise TypeError)).
  { unfold find_luac. rewrite Hwhich.
    assert (Hrest : (if String.eqb (os_name h) "nt"
                     then if access_x h (local_luac h)
                          then (Some (local_luac h), Ok true)
                          else (None, Raise TypeError)
                     else (None, Raise TypeError)) = (@None string, @Raise bool TypeError)).
    { destruct Hlocal as [Hos|Hacc].
      - apply String.eqb_neq in Hos. rewrite Hos. reflexivity.
      - rewrite Hacc. destruct (String.eqb (os_name h) "nt"); reflexivity. }
    destruct Henv as [-> | ->]; exact Hrest. }
  split; [exact H|]. unfold main. rewrite H. reflexivity.
Qed.

Lemma print_all_app :
  forall messages out, print_all messages out = out ++ messages.
Proof.
  induction messages as [|m messages IH]; intros out; simpl.
  - now rewrite app_nil_r.
  - rewrite IH, <- app_assoc. reflexivity.
Qed.

(** X14: [main] prints [error: luac5.1 not found] and returns 1 exactly
    when [find_luac] answers [False], reading no input; and when
    [find_luac] answers [True] and [check] returns, it prints the messages
    of [check] in their order and returns 0, whether or not there are
    diagnostics. *)
Theorem main_exit_codes
  (h : host) (run_luac : string -> string -> string * string)
  (stdin : string) (read_file : string -> option string) (argv : list string) :
  (forall out, main h run_luac stdin read_file argv = (out, Exit 1) <->
               out = ["error: luac5.1 not found"] /\ snd (find_luac h) = Ok false)
  /\ (forall out,
         main h run_luac stdin read_file argv = (out, Exit 0) <->
         exists luac source,
           find_luac h = (Some luac, Ok true)
           /\ (if reads_stdin argv then Some stdin
               else match nth_error argv 1 with
                    | Some name => read_file name
                    | None => None
                    end) = Some source
           /\ check (run_luac luac) source = Ok out).
Proof.
  unfold main.
  destruct (find_luac h) as [[luac|] [[|]|e]] eqn:F; cbn [snd];
    try (destruct (if reads_stdin argv then Some stdin
                   else match nth_error argv 1 with
                        | Some name => read_file name
                        | None => None
                        end) as [source|] eqn:S;
         [destruct (check (run_luac luac) source) as [messages|e] eqn:C|]);
    try rewrite print_all_app; cbn [app];
    (split; intros out; split; intros H).
  all: try discriminate.
  all: try (apply proj2 in H; discriminate H).
  all: try (destruct H as (luac' & source' & E1 & E2 & E3); discriminate).
  all: try (destruct H as (luac' & source' & E1 & E2 & E3);
            inversion E1; subst; inversion E2; subst; congruence).
  all: try (inversion H; subst; eauto; fail).
  all: try (destruct H as [-> _]; reflexivity).
Qed.

Lemma no_compiler_raises_witness :
  (environ_LUAC51 bare_host = None \/ environ_LUAC51 bare_host = Some EmptyString)
  /\ (os_name bare_host <> "nt" \/ access_x bare_host (local_luac bare_host) = false)
  /\ which_luac bare_host = None
  /\ find_luac bare_host = (None, Raise TypeError)
  /\ main bare_host (fun _ => luac_gives sample_listing EmptyString) "b = 1"
       (fun _ => None) ["cclint.py"] = ([], Uncaught (FindRaised TypeError)).
Proof.
  split; [left; reflexivity|]. split; [right; reflexivity|]. split; [reflexivity|].
  exact (no_compiler_raises bare_host (fun _ => luac_gives sample_listing EmptyString)
           "b = 1" (fun _ => None) ["cclint.py"]
           (or_introl eq_refl) (or_intror eq_refl) eq_refl).
Defined.

(* ================================================================== *)
(** ** The rest of the program: the names of the list markers *)

Lemma finditer_from_in (r : regex) (m : captures) :
  forall s skip,
    In m (finditer_from r skip s) ->
    exists s' rest, match_here r s' = Some (rest, m).
Proof.
  induction s as [|a s IH]; intros skip H.
  - destruct skip; simpl in H; [|contradiction].
    destruct (match_here r EmptyString) as [[rest c]|] eqn:E; [|contradiction].
    destruct H as [->|[]]. eauto.
  - destruct skip; cbn [finditer_from] in H; [|exact (IH _ H)].
    destruct (match_here r (String a s)) as [[rest c]|] eqn:E; [|exact (IH _ H)].
    destruct H as [->|H]; [eauto | exact (IH _ H)].
Qed.

Lemma plus_split (R : Type) (p : cls) (k : cont R) (c : captures) (x : R) (s : string) :
  rmatch R (Plus p) s c k = Some x ->
  exists u v, s = u +++ v /\ u <> EmptyString /\ all p u = true /\ k v c = Some x.
Proof.
  unfold Plus. cbn [rmatch]. destruct s as [|a s]; [discriminate|].
  destruct (p a) eqn:Pa; [|discriminate].
  intros H. apply max_repeat_one_split in H. destruct H as (u & v & -> & Hu & Hk).
  exists (String a u), v. repeat split; [discriminate | simpl; rewrite Pa; exact Hu | exact Hk].
Qed.

Lemma names_text_tail (u : string) :
  names_text u -> forall t, names_tail t -> names_text (u +++ t).
Proof.
  intros Hu t Ht. revert u Hu.
  induction Ht as [|sp w t Hsp Hw Hww Ht IH]; intros u Hu.
  - rewrite append_nil_r. exact Hu.
  - rewrite <- append_assoc. apply IH. apply names_more; assumption.
Qed.

Lemma lit_inv (l : string) :
  forall s t, lit l s = Some t -> s = l +++ t.
Proof.
  induction l as [|a l IH]; intros s t H; simpl in H.
  - inversion H. reflexivity.
  - destruct s as [|b s]; [discriminate|].
    destruct (Ascii.eqb a b) eqn:E; [|discriminate].
    apply Ascii.eqb_eq in E. subst b. simpl. f_equal. exact (IH _ _ H).
Qed.

Lemma name_list_sound (R : Type) (k : cont R) (x : R) (s : string) (c : captures) :
  rmatch R (Cat (Plus word)
                (MaxRepeat (cat [Lit ","; MaxRepeatOne space; Plus word])))
         s c k = Some x ->
  exists u v, s = u +++ v /\ names_text u /\ k v c = Some x.
Proof.
  cbn [rmatch]. intros H. apply plus_split in H.
  destruct H as (w & v & -> & Hw & Hww & H).
  assert (Htail : exists t v', v = t +++ v' /\ names_tail t /\ k v' c = Some x).
  { revert H. cbn [rmatch]. generalize (String.length v) as fuel. intros fuel.
    revert v. induction fuel as [|fuel IH]; intros v H.
    - exists EmptyString, v. repeat split; [constructor | exact H].
    - match type of H with
      | match ?m with _ => _ end = _ => destruct m eqn:E
      end.
      + inversion H; subst. clear H.
        cbn [cat fold_right rmatch] in E.
        destruct (lit "," v) as [v1|] eqn:L; [|discriminate].
        apply lit_inv in L. subst v.
        apply max_repeat_one_split in E. destruct E as (sp & v2 & -> & Hsp & E).
        apply plus_split in E. destruct E as (w' & v3 & -> & Hw' & Hww' & E).
        cbn [rmatch] in E.
        destruct (Nat.ltb _ _); [|discriminate].
        apply IH in E. destruct E as (t & v' & -> & Ht & Hk).
        exists (String "," (sp +++ w') +++ t), v'. repeat split.
        * simpl. rewrite !append_assoc. reflexivity.
        * constructor; assumption.
        * exact Hk.
      + exists EmptyString, v. repeat split; [constructor | exact H]. }
  destruct Htail as (t & v' & -> & Ht & Hk).
  exists (w +++ t), v'. repeat split.
  - rewrite append_assoc. reflexivity.
  - apply names_text_tail; [constructor; assumption | exact Ht].
  - exact Hk.
Qed.

(** The group of a list marker holds a text of words and commas. *)
Lemma marker_match_names (l : string) (s rest : string) (m : captures) :
  match_here (Cat (Lit l) name_list) s = Some (rest, m) ->
  exists u, names_text u /\ m = [("1", u)].
Proof.
  unfold match_here, name_list. cbn [rmatch].
  destruct (lit l s) as [s1|]; [|discriminate].
  intros H. apply name_list_sound in H.
  destruct H as (u & v & -> & Hu & Hk).
  rewrite consumed_append in Hk. inversion Hk. eauto.
Qed.

Lemma split_nonempty (sep : ascii) (s : string) : split sep s <> [].
Proof.
  destruct s as [|a s]; simpl; [discriminate|].
  destruct (Ascii.eqb a sep); [discriminate|].
  destruct (split sep s); discriminate.
Qed.

Lemma split_app_sep (sep : ascii) :
  forall t r, split sep (t +++ String sep r) = split sep t ++ split sep r.
Proof.
  induction t as [|a t IH]; intros r.
  - simpl. rewrite Ascii.eqb_refl. reflexivity.
  - change (String a t +++ String sep r) with (String a (t +++ String sep r)).
    cbn [split]. rewrite IH.
    destruct (Ascii.eqb a sep); [reflexivity|].
    pose proof (split_nonempty sep t) as Hne.
    destruct (split sep t) as [|x xs]; [congruence | reflexivity].
Qed.

Lemma space_not_comma (a : ascii) : space a = true -> negb (Ascii.eqb a ",") = true.
Proof. exact (class_excludes space "," eq_refl a). Qed.

Lemma word_not_comma (a : ascii) : word a = true -> negb (Ascii.eqb a ",") = true.
Proof. exact (class_excludes word "," eq_refl a). Qed.

(** The pieces between the commas: blanks, then a word. *)
Lemma names_text_split (u : string) :
  names_text u ->
  Forall (fun piece =>
            exists sp w, piece = sp +++ w /\ all space sp = true /\
                         w <> EmptyString /\ all word w = true)
         (split "," u).
Proof.
  induction 1 as [w Hw Hww | t sp w Ht IH Hsp Hw Hww].
  - rewrite split_no_sep by exact (all_impl _ _ _ word_not_comma Hww).
    constructor; [|constructor]. exists EmptyString, w. auto.
  - rewrite split_app_sep. apply Forall_app. split; [exact IH|].
    rewrite split_no_sep.
    + constructor; [|constructor]. exists sp, w. auto.
    + rewrite all_app, (all_impl _ _ _ space_not_comma Hsp),
        (all_impl _ _ _ word_not_comma Hww). reflexivity.
Qed.

Lemma space_isspace (a : ascii) : space a = true -> isspace a = true.
Proof.
  unfold space, isspace, between. intros H.
  destruct (Ascii.eqb a " ") eqn:E.
  - apply Ascii.eqb_eq in E. subst a. reflexivity.
  - simpl in H. rewrite H. reflexivity.
Qed.

Lemma word_not_isspace (a : ascii) : word a = true -> isspace a = false.
Proof.
  unfold word, digit, between, isspace. intros H.
  destruct (Ascii.eqb a "_") eqn:E.
  - apply Ascii.eqb_eq in E. subst a. reflexivity.
  - rewrite orb_false_r in H.
    repeat match goal with
           | |- context [(?x <=? ?y)%N] => destruct (N.leb_spec x y)
           | H : context [(?x <=? ?y)%N] |- _ => destruct (N.leb_spec x y)
           end; simpl in *; try reflexivity; try discriminate; lia.
Qed.

Lemma rstrip_ws_word :
  forall w, all word w = true -> rstrip_ws w = w.
Proof.
  induction w as [|a w IH]; intros H; [reflexivity|].
  simpl in H. apply andb_true_iff in H. destruct H as [Ha Hw].
  cbn [rstrip_ws]. rewrite (IH Hw), (word_not_isspace a Ha).
  destruct w; reflexivity.
Qed.

Lemma strip_piece (sp w : string) :
  all space sp = true -> w <> EmptyString -> all word w = true ->
  strip (sp +++ w) = w.
Proof.
  intros Hsp Hw Hww. unfold strip.
  assert (L : lstrip_ws (sp +++ w) = w).
  { induction sp as [|a sp IH].
    - destruct w as [|b w]; [congruence|]. simpl in Hww.
      apply andb_true_iff in Hww. destruct Hww as [Hb _].
      simpl. rewrite (word_not_isspace b Hb). reflexivity.
    - simpl in Hsp. apply andb_true_iff in Hsp. destruct Hsp as [Ha Hsp].
      simpl. rewrite (space_isspace a Ha). exact (IH Hsp). }
  rewrite L. apply rstrip_ws_word. exact Hww.
Qed.

Lemma directive_names_words (l : string) (source name : string) :
  In name (directive_names (Cat (Lit l) name_list) source) ->
  name <> EmptyString /\ all word name = true.
Proof.
  unfold directive_names. intros H. apply in_flat_map in H.
  destruct H as (m & Hm & Hin).
  apply finditer_from_in in Hm. destruct Hm as (s' & rest & Hm).
  apply marker_match_names in Hm. destruct Hm as (u & Hu & ->).
  cbn [group] in Hin. change (String.eqb "1" "1") with true in Hin. cbv iota in Hin.
  apply in_map_iff in Hin. destruct Hin as (piece & <- & Hp).
  pose proof (names_text_split u Hu) as Hall. rewrite Forall_forall in Hall.
  destruct (Hall _ Hp) as (sp & w & -> & Hsp & Hw & Hww).
  rewrite strip_piece by assumption. auto.
Qed.

(** X15: every name [get_directives] puts in its two lists is a
    non-empty word of letters, digits and underscores, without blanks
    around it: a marker never yields an empty name, whatever follows its
    last word. *)
Theorem get_directives_names_are_words (source : string) :
  let '(ignore_get, ignore_set, _, _) := get_directives source in
  Forall (fun name => name <> EmptyString /\ all word name = true) ignore_get
  /\ Forall (fun name => name <> EmptyString /\ all word name = true) ignore_set.
Proof.
  unfold get_directives. cbv beta iota zeta.
  split; apply Forall_forall; intros name H; apply in_app_or in H;
    destruct H as [H|H];
    first [ exact (directive_names_words "lint-ignore-global: " source name H)
          | exact (directive_names_words "lint-ignore-global-get: " source name H)
          | exact (directive_names_words "lint-ignore-global-set: " source name H) ].
Qed.

Lemma get_directives_names_are_words_witness :
  get_directives "-- lint-ignore-global: a,  b2," =
    (["a"; "b2"], ["a"; "b2"], false, false)
  /\ Forall (fun name => name <> EmptyString /\ all word name = true) ["a"; "b2"].
Proof.
  assert (H : get_directives "-- lint-ignore-global: a,  b2," =
              (["a"; "b2"], ["a"; "b2"], false, false))
    by (vm_compute; reflexivity).
  split; [exact H|].
  pose proof (get_directives_names_are_words "-- lint-ignore-global: a,  b2,") as W.
  rewrite H in W. exact (proj1 W).
Defined.

(* ================================================================== *)
(** ** The rest of the program: sequences without loader *)

(** X16: the detector looks past the instruction at hand only after a
    read of [os] or [bapil]: on a sequence that holds no such read it
    raises nothing, however the sequence ends, and returns no name. *)
Theorem get_apis_without_loader (instructions : list instruction) :
  Forall (fun ins => reads_loader ins = false) instructions ->
  get_apis instructions = Ok [].
Proof.
  intros H. unfold get_apis.
  generalize 0 as i. generalize (List.length instructions) at 1 as fuel.
  induction fuel as [|fuel IH]; intros i; simpl;
    destruct (Nat.ltb i (List.length instructions)) eqn:E; try reflexivity.
  apply Nat.ltb_lt in E.
  assert (B : get_apis_body instructions i [] = Ok (i + 1, [])).
  { unfold get_apis_body, getitem.
    destruct (nth_error instructions i) as [[[[c0 l0] n0] f0]|] eqn:E0;
      [|apply nth_error_None in E0; lia].
    cbn [bind]. rewrite Forall_forall in H.
    pose proof (H _ (nth_error_In _ _ E0)) as Hl. simpl in Hl. rewrite Hl.
    reflexivity. }
  rewrite B. cbn [bind fst snd]. apply IH.
Qed.

Lemma get_apis_without_loader_witness :
  Forall (fun ins => reads_loader ins = false)
    [ (Some Main, 1%N, "GETGLOBAL", Some "print");
      (Some Main, 1%N, "GETTABLE", Some (quoted "loadAPI"));
      (Some Main, 1%N, "LOADK", None) ]
  /\ get_apis [ (Some Main, 1%N, "GETGLOBAL", Some "print");
                (Some Main, 1%N, "GETTABLE", Some (quoted "loadAPI"));
                (Some Main, 1%N, "LOADK", None) ] = Ok [].
Proof.
  assert (H : Forall (fun ins => reads_loader ins = false)
                [ (Some Main, 1%N, "GETGLOBAL", Some "print");
                  (Some Main, 1%N, "GETTABLE", Some (quoted "loadAPI"));
                  (Some Main, 1%N, "LOADK", None) ])
    by (repeat constructor).
  split; [exact H|]. exact (get_apis_without_loader _ H).
Defined.

Lemma find_luac_true_gives_executable_witness :
  find_luac env_host = (Some "/opt/lua/luac", Ok true)
  /\ exists path, Some "/opt/lua/luac" = Some path /\ access_x env_host path = true.
Proof.
  assert (H : find_luac env_host = (Some "/opt/lua/luac", Ok true)) by reflexivity.
  split; [exact H|].
  exact (proj1 (find_luac_true_gives_executable env_host) _ H).
Defined.
